(** * ASOH estimation notebook: a shallow embedding

    The development follows the code cells of
    [2_run-asoh-estimation.ipynb]: the configuration cell that pads the
    reference OCV table, [create_estimator], and the batch loop that runs
    the online estimator over every cell file, joins the estimates to the
    measurements, averages them by cycle and saves the result.

    Floating-point numbers are modelled by rationals ([Q]); a missing
    value (pandas NaN) is [None].  Python objects that are shared and
    mutated live in a heap of locations, files in a finite map from
    paths to datasets. *)

From Stdlib Require Import QArith Lqa.
From stdpp Require Import gmap strings list fin_maps pretty sorting.

Set Default Proof Using "Type".
Set Warnings "-clear-no-such-hyp".

(* ===================================================================== *)
(** * Part I: definitions *)
(* ===================================================================== *)

(** ** Exceptions and fallible computations *)

Inductive exn :=
| LinAlgError
| KeyError
| IndexError
| ValueError
| AttributeError
| FileNotFoundError.

Global Instance exn_eq_dec : EqDecision exn.
Proof. solve_decision. Defined.

Abbreviation result := (sum exn).

Global Instance result_bind : MBind result := λ A B k m,
  match m with
  | inl e => inl e
  | inr a => k a
  end.

Definition is_ok {A} (m : result A) : bool :=
  match m with inr _ => true | inl _ => false end.

(** ** Numbers *)

(** A float64 cell of a data frame; [None] is NaN. *)
Abbreviation value := (option Q).
Abbreviation NaN := (@None Q).

Definition Qsum (l : list Q) : Q := foldr Qplus 0%Q l.

Definition dot (u v : list Q) : Q :=
  Qsum (zip_with Qmult u v).

(** ** numpy matrices (row major) *)

Abbreviation matrix := (list (list Q)).

(** [np.diag(l)] for a one-dimensional [l]. *)
Definition np_diag (l : list Q) : matrix :=
  imap (λ i d, replicate i 0%Q ++ d :: replicate (length l - S i) 0%Q) l.

(** [np.eye(n)] *)
Definition np_eye (n : nat) : matrix := np_diag (replicate n 1%Q).

(** [c * m] for a scalar [c] *)
Definition scale (c : Q) (m : matrix) : matrix := map (map (Qmult c)) m.

(** [m.shape[0]] *)
Definition shape0 (m : matrix) : nat := length m.

Definition entry (m : matrix) (i j : nat) : Q :=
  default 0%Q (m !! i ≫= λ row, row !! j).

Definition is_square (m : matrix) : Prop :=
  Forall (λ row, length row = length m) m.

Definition symmetric (m : matrix) : Prop :=
  ∀ i j, (entry m i j == entry m j i)%Q.

(** The quadratic form [x^T m x]. *)
Definition quad_form (m : matrix) (x : list Q) : Q :=
  dot x (map (λ row, dot row x) m).

Definition positive_semi_definite (m : matrix) : Prop :=
  ∀ x, length x = length m → (0 <= quad_form m x)%Q.

Definition is_diagonal (m : matrix) : Prop :=
  ∀ i j, i ≠ j → (entry m i j == 0)%Q.

Definition nonneg_diagonal (m : matrix) : Prop :=
  ∀ i, (0 <= entry m i i)%Q.

(** Modelled from the spec: the covariance check of the filter factory
    (its code is in the estimation library, not in the notebook).  "All
    covariances must be symmetric PSD; violating this fails with
    InvalidCovarianceError." *)
Definition valid_covariance (m : matrix) : Prop :=
  is_square m ∧ symmetric m ∧ positive_semi_definite m.

Definition raises_InvalidCovarianceError (m : matrix) : Prop :=
  ¬ valid_covariance m.

(** ** pandas data frames (column major) *)

Record Series := mkSeries {
  s_index : list Z;
  s_values : list value
}.

Record DataFrame := mkFrame {
  index : list Z;
  columns : list (string * list value)
}.

(** Every column is as long as the index. *)
Definition wf_frame (df : DataFrame) : Prop :=
  Forall (λ c, length c.2 = length (index df)) (columns df).

Definition column_names (df : DataFrame) : list string := (columns df).*1.

Fixpoint assoc (name : string) (cols : list (string * list value)) : option (list value) :=
  match cols with
  | [] => None
  | (n, vs) :: cols' => if decide (n = name) then Some vs else assoc name cols'
  end.

(** [df[name]] *)
Definition getitem (df : DataFrame) (name : string) : result Series :=
  match assoc name (columns df) with
  | Some vs => inr (mkSeries (index df) vs)
  | None => inl KeyError
  end.

(** [s.iloc[0]] *)
Definition iloc0 (s : Series) : result value :=
  match s_values s with
  | v :: _ => inr v
  | [] => inl IndexError
  end.

(** [df.rename(columns=f)] *)
Definition rename (f : string → string) (df : DataFrame) : DataFrame :=
  mkFrame (index df) (prod_map f id <$> columns df).

(** [df.drop(columns=[name])] *)
Definition drop_column (name : string) (df : DataFrame) : result DataFrame :=
  if decide (name ∈ column_names df)
  then inr (mkFrame (index df) (filter (λ c, c.1 ≠ name) (columns df)))
  else inl KeyError.

(** Positions of the label [l] in an index, counted from [j]. *)
Fixpoint positions (l : Z) (idx : list Z) (j : nat) : list nat :=
  match idx with
  | [] => []
  | k :: idx' =>
      (if decide (k = l) then [j] else []) ++ positions l idx' (S j)
  end.

(** The rows of a left join on the index: for the left row at position [i]
    one result row per right row with the same label, or one row without a
    partner. *)
Fixpoint join_plan (li ri : list Z) (i : nat) : list (nat * option nat) :=
  match li with
  | [] => []
  | l :: li' =>
      match positions l ri 0 with
      | [] => [(i, None)]
      | js => (λ j, (i, Some j)) <$> js
      end ++ join_plan li' ri (S i)
  end.

Definition take_left (plan : list (nat * option nat)) (vs : list value) : list value :=
  (λ p, default NaN (vs !! p.1)) <$> plan.

Definition take_right (plan : list (nat * option nat)) (vs : list value) : list value :=
  (λ p, match p.2 with
        | Some j => default NaN (vs !! j)
        | None => NaN
        end) <$> plan.

Definition overlap (l r : list string) : bool :=
  bool_decide (Exists (λ n, n ∈ r) l).

(** [left.join(right)]: a left join on the index; pandas raises
    [ValueError] when the two frames share a column name and no suffix is
    given. *)
Definition join (left right : DataFrame) : result DataFrame :=
  if overlap (column_names left) (column_names right) then inl ValueError
  else
    let plan := join_plan (index left) (index right) 0 in
    inr (mkFrame
           ((λ p, default 0%Z (index left !! p.1)) <$> plan)
           ((prod_map id (take_left plan) <$> columns left) ++
            (prod_map id (take_right plan) <$> columns right))).

(** Align a series on the index of a frame that has rows (what column
    assignment does then): no work when the indexes are equal, otherwise a
    lookup by label, which pandas refuses when the series has duplicate
    labels. *)
Definition reindex (s : Series) (idx : list Z) : result (list value) :=
  if decide (s_index s = idx) then inr (s_values s)
  else if decide (NoDup (s_index s)) then
    inr ((λ l, match positions l (s_index s) 0 with
               | j :: _ => default NaN (s_values s !! j)
               | [] => NaN
               end) <$> idx)
  else inl ValueError.

Fixpoint set_assoc (name : string) (vs : list value)
    (cols : list (string * list value)) : list (string * list value) :=
  match cols with
  | [] => [(name, vs)]
  | (n, old) :: cols' =>
      if decide (n = name) then (n, vs) :: cols'
      else (n, old) :: set_assoc name vs cols'
  end.

(** [df[name] = s].  A frame without rows that is given a series with
    values takes over the index of the series, its own columns filled with
    NaN; otherwise the series is aligned on the index of the frame. *)
Definition setitem (df : DataFrame) (name : string) (s : Series) : result DataFrame :=
  if decide (index df = [] ∧ s_values s ≠ []) then
    inr (mkFrame (s_index s)
           (set_assoc name (s_values s)
              (prod_map id (λ _, replicate (length (s_index s)) NaN)
                 <$> columns df)))
  else
    vs ← reindex s (index df);
    inr (mkFrame (index df) (set_assoc name vs (columns df))).

(** The distinct keys of a column in increasing order (NaN keys are left
    out of a groupby). *)
Fixpoint insert_key (k : Q) (ks : list Q) : list Q :=
  match ks with
  | [] => [k]
  | k' :: ks' =>
      if Qeq_bool k k' then ks
      else if Qle_bool k k' then k :: ks
      else k' :: insert_key k ks'
  end.

Definition group_keys (keys : list value) : list Q :=
  foldr (λ v acc, match v with Some k => insert_key k acc | None => acc end) [] keys.

(** The values of a column in the rows whose key is [k]. *)
Definition group_values (keys vs : list value) (k : Q) : list value :=
  (zip keys vs ≫= λ kv,
     match kv.1 with
     | Some k' => if Qeq_bool k' k then [kv.2] else []
     | None => []
     end).

(** The arithmetic mean of the values that are not NaN; NaN when there is
    none. *)
Definition nanmean (vs : list value) : value :=
  let present := omap id vs in
  match present with
  | [] => NaN
  | _ => Some (Qred (Qsum present / inject_Z (Z.of_nat (length present))))
  end.

(** The result of [df.groupby(key).mean()]: indexed by the group keys. *)
Record GroupedMeans := mkGrouped {
  g_key : string;
  g_keys : list Q;
  g_columns : list (string * list value)
}.

Definition groupby_mean (df : DataFrame) (key : string) : result GroupedMeans :=
  match assoc key (columns df) with
  | None => inl KeyError
  | Some keys =>
      let ks := group_keys keys in
      inr (mkGrouped key ks
             ((λ c, (c.1, (λ k, nanmean (group_values keys c.2 k)) <$> ks))
                <$> filter (λ c, c.1 ≠ key) (columns df)))
  end.

(** [g.reset_index()]: the keys become an ordinary first column and the
    index becomes 0, 1, 2, ... *)
Definition reset_index (g : GroupedMeans) : DataFrame :=
  mkFrame (Z.of_nat <$> seq 0 (length (g_keys g)))
          ((g_key g, Some <$> g_keys g) :: g_columns g).

(** The value of column [name] in the row labelled [l]. *)
Definition at_label (df : DataFrame) (l : Z) (name : string) : option value :=
  match positions l (index df) 0 with
  | i :: _ => assoc name (columns df) ≫= λ vs, vs !! i
  | [] => None
  end.

(** The estimates [vs] of the samples whose cycle number is [k], the
    missing ones left out. *)
Definition cycle_samples (cyc vs : list value) (k : Q) : list Q :=
  omap snd (filter (λ kv, from_option (λ c, Qeq_bool c k) false kv.1 = true)
              (zip cyc vs)).

(** [m] is the arithmetic mean of [xs]; the mean of no value is NaN. *)
Definition is_mean (xs : list Q) (m : value) : Prop :=
  match m with
  | Some q => xs ≠ [] ∧ (q * inject_Z (Z.of_nat (length xs)) == Qsum xs)%Q
  | None => xs = []
  end.

(** ** Python objects of the estimation library *)

Abbreviation loc := positive.

(** A health variable such as [q_t] or [r0]: its values and the names of
    the fields marked updatable. *)
Record HealthVariable := mkHealth {
  base_values : list Q;
  updatable : list string
}.

(** The reference OCV curve [ocv.ocv_ref]. *)
Record ReferenceOCV := mkRefOCV {
  ref_base_values : list Q;
  soc_pinpoints : list Q;
  interpolation_style : string
}.

Record ECMTransientVector := mkTransient {
  soc : Q;
  hyst : Q
}.

Inductive pyobj :=
| OHealth (v : HealthVariable)
| ORefOCV (v : ReferenceOCV)
| OOpenCircuitVoltage (ocv_ref : loc)
| OECMASOH (q_t r0 ocv : loc)
| OTransient (v : ECMTransientVector).

Abbreviation heap := (gmap loc pyobj).

Definition alloc (h : heap) (o : pyobj) : heap * loc :=
  let l := fresh (dom h) in (<[l := o]> h, l).

Definition get_health (h : heap) (l : loc) : result HealthVariable :=
  match h !! l with
  | Some (OHealth v) => inr v
  | _ => inl AttributeError
  end.

Definition get_ref_ocv (h : heap) (l : loc) : result ReferenceOCV :=
  match h !! l with
  | Some (ORefOCV v) => inr v
  | _ => inl AttributeError
  end.

Definition get_transient (h : heap) (l : loc) : result ECMTransientVector :=
  match h !! l with
  | Some (OTransient v) => inr v
  | _ => inl AttributeError
  end.

(** The attributes [asoh.q_t], [asoh.r0], [asoh.ocv] and [ocv.ocv_ref]. *)
Definition attr_q_t (h : heap) (asoh : loc) : result loc :=
  match h !! asoh with
  | Some (OECMASOH q _ _) => inr q
  | _ => inl AttributeError
  end.

Definition attr_r0 (h : heap) (asoh : loc) : result loc :=
  match h !! asoh with
  | Some (OECMASOH _ r _) => inr r
  | _ => inl AttributeError
  end.

Definition attr_ocv (h : heap) (asoh : loc) : result loc :=
  match h !! asoh with
  | Some (OECMASOH _ _ o) => inr o
  | _ => inl AttributeError
  end.

Definition attr_ocv_ref (h : heap) (ocv : loc) : result loc :=
  match h !! ocv with
  | Some (OOpenCircuitVoltage r) => inr r
  | _ => inl AttributeError
  end.

(** The contents of an ASOH object and of the objects it refers to. *)
Record ASOHValue := mkASOHValue {
  v_q_t : HealthVariable;
  v_r0 : HealthVariable;
  v_ocv_ref : ReferenceOCV
}.

Definition read_asoh (h : heap) (asoh : loc) : result ASOHValue :=
  ql ← attr_q_t h asoh;
  q ← get_health h ql;
  rl ← attr_r0 h asoh;
  r ← get_health h rl;
  ol ← attr_ocv h asoh;
  rf ← attr_ocv_ref h ol;
  c ← get_ref_ocv h rf;
  inr (mkASOHValue q r c).

(** The locations an ASOH object is made of: itself and everything it
    refers to. *)
Definition asoh_locs (h : heap) (asoh : loc) : result (list loc) :=
  ql ← attr_q_t h asoh;
  rl ← attr_r0 h asoh;
  ol ← attr_ocv h asoh;
  rf ← attr_ocv_ref h ol;
  inr [asoh; ql; rl; ol; rf].

(** [asoh.model_copy(deep=True)]: every object reachable from [asoh] is
    copied to a new location. *)
Definition model_copy_deep (h : heap) (asoh : loc) : result (heap * loc) :=
  a ← read_asoh h asoh;
  let '(h1, ql) := alloc h (OHealth (v_q_t a)) in
  let '(h2, rl) := alloc h1 (OHealth (v_r0 a)) in
  let '(h3, rf) := alloc h2 (ORefOCV (v_ocv_ref a)) in
  let '(h4, ol) := alloc h3 (OOpenCircuitVoltage rf) in
  inr (alloc h4 (OECMASOH ql rl ol)).

(** [asoh.model_copy()]: only the top object is copied, the copy shares
    the health variables with the original. *)
Definition model_copy_shallow (h : heap) (asoh : loc) : result (heap * loc) :=
  match h !! asoh with
  | Some (OECMASOH q r o) => inr (alloc h (OECMASOH q r o))
  | _ => inl AttributeError
  end.

(** [asoh.mark_updatable('<var>.base_values')] for [var] among [q_t] and
    [r0]. *)
Definition mark_updatable (h : heap) (asoh : loc) (var : string) : result heap :=
  l ← (if decide (var = "q_t") then attr_q_t h asoh
       else if decide (var = "r0") then attr_r0 h asoh
       else inl AttributeError);
  v ← get_health h l;
  inr (<[l := OHealth (mkHealth (base_values v)
                         (if decide ("base_values" ∈ updatable v) then updatable v
                          else updatable v ++ ["base_values"]))]> h).

(** ** The configuration cell: padding the reference OCV

    The cell is entered after [initial_asoh.ocv(0.5)], which leaves
    [soc_pinpoints] initialised. *)

Definition pad_soc_pinpoints (old : list Q) : list Q :=
  [-0.1]%Q ++ old ++ [1.1]%Q.

Definition pad_base_vals (old : list Q) : list Q :=
  [0]%Q ++ old ++ [6.5]%Q.

Definition fix_reference_ocv (h : heap) (initial_asoh : loc) : result heap :=
  ol ← attr_ocv h initial_asoh;
  rf ← attr_ocv_ref h ol;
  c ← get_ref_ocv h rf;
  let soc_pinpoints' := pad_soc_pinpoints (soc_pinpoints c) in
  let base_vals := pad_base_vals (ref_base_values c) in
  inr (<[rf := ORefOCV (mkRefOCV base_vals soc_pinpoints' "linear")]> h).

(** [initial_asoh.ocv.ocv_ref] *)
Definition reference_ocv (h : heap) (asoh : loc) : result ReferenceOCV :=
  ol ← attr_ocv h asoh;
  rf ← attr_ocv_ref h ol;
  get_ref_ocv h rf.

Definition configure (h : heap) (initial_asoh : loc) : result heap :=
  h1 ← fix_reference_ocv h initial_asoh;
  h2 ← mark_updatable h1 initial_asoh "r0";
  mark_updatable h2 initial_asoh "q_t".

(** Modelled from the spec: the linear-interpolation lookup of the
    external cell model.  The query is answered from the first pair of
    neighbouring pinpoints that encloses it and fails when there is none
    (a query outside the table) or when the table is ragged. *)
Fixpoint interp_linear (xs ys : list Q) (x : Q) : option Q :=
  match xs, ys with
  | x0 :: ((x1 :: _) as xs'), y0 :: ((y1 :: _) as ys') =>
      if Qle_bool x0 x && Qle_bool x x1
      then Some (y0 + (x - x0) * (y1 - y0) / (x1 - x0))%Q
      else interp_linear xs' ys' x
  | _, _ => None
  end.

(** Modelled from the spec: a query of the reference OCV.  The lookup
    follows the [interpolation_style] of the table; only the style
    ["linear"], the one the configuration cell sets, is modelled, and a
    table of any other style gives no answer here. *)
Definition ocv_query (c : ReferenceOCV) (s : Q) : option Q :=
  if decide (interpolation_style c = "linear") then
    if decide (length (soc_pinpoints c) = length (ref_base_values c))
    then interp_linear (soc_pinpoints c) (ref_base_values c) s
    else None
  else None.

(** ** Datasets, estimators and the external estimation library *)

Record BatteryDataset := mkDataset {
  raw_data : DataFrame;
  cycle_stats : DataFrame
}.

Record ECMInput := mkInput {
  time : value;
  current : value
}.

(** What [create_estimator] hands to
    [JointEstimator.initialize_unscented_kalman_filter]: the estimator is
    determined by these arguments.  The ASOH and the transient state are
    passed by reference. *)
Record JointEstimator := mkEstimator {
  initial_asoh_of : loc;
  initial_inputs : ECMInput;
  initial_transients : loc;
  covariance_asoh : matrix;
  covariance_transient : matrix;
  transient_covariance_process_noise : matrix;
  asoh_covariance_process_noise : matrix;
  covariance_sensor_noise : matrix
}.

(** The covariance arguments of the factory. *)
Definition covariances (est : JointEstimator) : list matrix :=
  [covariance_asoh est; covariance_transient est;
   transient_covariance_process_noise est;
   asoh_covariance_process_noise est; covariance_sensor_noise est].

(** One row of the measurement stream. *)
Record Sample := mkSample {
  sample_time : value;
  sample_current : value;
  sample_voltage : value
}.

(** The posterior after one step: mean and standard deviation of every
    joint-state dimension. *)
Record Posterior := mkPosterior {
  post_mean : list Q;
  post_std : list Q
}.

(** The parts of the estimation library the notebook calls and whose code
    is not in the notebook: the initial transient state of an ASOH, and the
    filter core with its step, which either returns the next core and the
    posterior or raises. *)
Class Moirae := {
  from_asoh : ASOHValue → ECMTransientVector;
  ukf : Type;
  ukf_initialize : JointEstimator → ASOHValue → ECMTransientVector → ukf;
  ukf_step : ukf → Sample → result (ukf * Posterior)
}.

(** [a.item()] of an array: defined for exactly one element. *)
Definition item (a : list Q) : result Q :=
  match a with
  | [x] => inr x
  | _ => inl ValueError
  end.

(** A [pathlib.Path]: its parts. *)
Abbreviation Path := (list string).

Section Notebook.
Context `{Moirae}.

(** ** [create_estimator] *)

Definition create_estimator (initial_asoh : loc) (dataset : BatteryDataset)
    (h : heap) : result (heap * JointEstimator) :=
  (* uncertainties for the parameters *)
  ql ← attr_q_t h initial_asoh;
  q_t ← get_health h ql;
  q ← item (base_values q_t);
  let asoh_covariance := [(2.5e-03 * q) ^ 2]%Q in
  rl ← attr_r0 h initial_asoh;
  r0 ← get_health h rl;
  let asoh_covariance :=
    asoh_covariance ++ ((λ r, (2.5e-03 * r) ^ 2)%Q <$> base_values r0) in
  let asoh_covariance := np_diag asoh_covariance in
  (* the transients *)
  a ← read_asoh h initial_asoh;
  let '(h1, init_transients) := alloc h (OTransient (from_asoh a)) in
  let h2 := alter (λ o, match o with
                        | OTransient v => OTransient (mkTransient 1%Q (hyst v))
                        | _ => o
                        end) init_transients h1 in
  let tran_covariance := np_diag [1/12; 2.5e-07]%Q in
  (* the noise terms *)
  let voltage_err := 1.0e-03%Q in
  let noise_sensor := scale ((voltage_err / 2) ^ 2)%Q (np_eye 1) in
  let noise_asoh := scale 1.0e-10%Q (np_eye (shape0 asoh_covariance)) in
  let noise_tran := scale 1.0e-08%Q (np_eye 2) in
  '(h3, asoh_copy) ← model_copy_deep h2 initial_asoh;
  time ← getitem (raw_data dataset) "test_time" ≫= iloc0;
  current ← getitem (raw_data dataset) "current" ≫= iloc0;
  inr (h3, mkEstimator asoh_copy (mkInput time current) init_transients
             asoh_covariance tran_covariance noise_tran noise_asoh noise_sensor).

(** ** The online loop

    [run_online_estimate] and the filter belong to the estimation library;
    the notebook only calls them.  They are modelled from the spec
    (sections 3, 4.3 and 4.4), with the numerical step of the filter left
    abstract in [Moirae]. *)

(** Modelled from the spec: the flattened updatable view of a health
    variable (section 3, "a flattened numeric view of only the updatable
    subset"). *)
Definition updatable_values (v : HealthVariable) : list Q :=
  if decide ("base_values" ∈ updatable v) then base_values v else [].

(** Modelled from the spec: [apply_updatable_values] on one health
    variable (section 4.1, the inverse of the flattening). *)
Definition write_health (v : HealthVariable) (vals : list Q) : HealthVariable :=
  if decide ("base_values" ∈ updatable v) then mkHealth vals (updatable v) else v.

(** Modelled from the spec: step 5 of the recursion (section 4.3).  The
    joint mean is the transient state followed by the updatable values of
    [q_t] and [r0]; its components are written into the working transient
    state and the working ASOH of the estimator. *)
Definition write_back (est : JointEstimator) (mean : list Q) (h : heap) : result heap :=
  let asoh := initial_asoh_of est in
  ql ← attr_q_t h asoh;
  q ← get_health h ql;
  rl ← attr_r0 h asoh;
  r ← get_health h rl;
  _ ← get_transient h (initial_transients est);
  let nq := length (updatable_values q) in
  let nr := length (updatable_values r) in
  match mean with
  | s :: y :: params =>
      if decide (length params = nq + nr) then
        inr (<[rl := OHealth (write_health r (drop nq params))]>
               (<[ql := OHealth (write_health q (take nq params))]>
                  (<[initial_transients est := OTransient (mkTransient s y)]> h)))
      else inl ValueError
  | _ => inl ValueError
  end.

(** The objects the estimator writes: its transient state and the
    health variables of its ASOH. *)
Definition working_locs (h : heap) (est : JointEstimator) : list loc :=
  initial_transients est ::
  match attr_q_t h (initial_asoh_of est), attr_r0 h (initial_asoh_of est) with
  | inr ql, inr rl => [ql; rl]
  | _, _ => []
  end.

(** Modelled from the spec: the loop of section 4.4, one posterior per
    consumed sample; the first step that raises ends the run. *)
Fixpoint online_loop (est : JointEstimator) (core : ukf) (stream : list Sample)
    (h : heap) (done : list Posterior) : heap * result (list Posterior) :=
  match stream with
  | [] => (h, inr done)
  | s :: stream' =>
      match ukf_step core s with
      | inl e => (h, inl e)
      | inr (core', p) =>
          match write_back est (post_mean p) h with
          | inl e => (h, inl e)
          | inr h' => online_loop est core' stream' h' (done ++ [p])
          end
      end
  end.

(** Modelled from the spec: the ordered (time, current, voltage) samples
    of a dataset (section 6). *)
Definition measurement_stream (dataset : BatteryDataset) : result (list Sample) :=
  t ← getitem (raw_data dataset) "test_time";
  i ← getitem (raw_data dataset) "current";
  v ← getitem (raw_data dataset) "voltage";
  inr (zip_with (λ ti v, mkSample ti.1 ti.2 v)
         (zip (s_values t) (s_values i)) (s_values v)).

(** Modelled from the spec: the names of the joint-state dimensions,
    transient fields first, then the updatable values (section 3); they
    are the names the plots of the notebook use, [q_t.base_values] and
    [r0.base_values[i]]. *)
Definition indexed_names (name : string) (n : nat) : list string :=
  match n with
  | 1 => [name]
  | _ => (λ i, name +:+ "[" +:+ pretty i +:+ "]") <$> seq 0 n
  end.

(** Modelled from the spec: the order of the joint state (section 3,
    JointState). *)
Definition state_names (a : ASOHValue) : list string :=
  ["soc"; "hyst"]
  ++ indexed_names "q_t.base_values" (length (updatable_values (v_q_t a)))
  ++ indexed_names "r0.base_values" (length (updatable_values (v_r0 a))).

(** Modelled from the spec: the estimate record, one value column and
    one [_std] column per joint-state dimension, one row per sample
    (sections 3 and 6). *)
Definition estimate_frame (idx : list Z) (names : list string)
    (rows : list Posterior) : DataFrame :=
  mkFrame idx
    (imap (λ k n, (n, (λ p, post_mean p !! k) <$> rows)) names ++
     imap (λ k n, (n +:+ "_std", (λ p, post_std p !! k) <$> rows)) names).

(** Modelled from the spec: the run entry point (section 6).  Only the
    estimate sequence of the returned pair is kept, as in the notebook. *)
Definition run_online_estimate (dataset : BatteryDataset) (est : JointEstimator)
    (h : heap) : heap * result DataFrame :=
  match read_asoh h (initial_asoh_of est),
        get_transient h (initial_transients est),
        measurement_stream dataset with
  | inr a, inr tr, inr stream =>
      let core := ukf_initialize est a tr in
      let '(h', r) := online_loop est core stream h [] in
      (h', rows ← r;
           inr (estimate_frame (index (raw_data dataset)) (state_names a) rows))
  | inl e, _, _ | _, inl e, _ | _, _, inl e => (h, inl e)
  end.

(** ** The batch loop *)

(** [path.name] *)
Definition name (p : Path) : string := default "" (last p).

(** [dir / n] *)
Definition joinpath (dir : Path) (n : string) : Path := dir ++ [n].

(** [str(path)] *)
Fixpoint path_str (p : Path) : string :=
  match p with
  | [] => "."
  | [n] => n
  | n :: p' => n +:+ "/" +:+ path_str p'
  end.

Definition estimate_dir : Path := ["estimates"].

Record world := mkWorld {
  objects : heap;
  files : gmap Path BatteryDataset;
  stdout : list string;
  (** the calls of [run_online_estimate] so far *)
  estimations : list (Path * JointEstimator)
}.

(** The estimators run so far are distinct objects that still exist. *)
Definition fresh_estimators (w : world) : Prop :=
  NoDup ((λ pe, initial_transients pe.2) <$> estimations w) ∧
  NoDup ((λ pe, initial_asoh_of pe.2) <$> estimations w) ∧
  ∀ pe, pe ∈ estimations w →
    initial_transients pe.2 ∈ dom (objects w) ∧
    initial_asoh_of pe.2 ∈ dom (objects w).

Definition failure_message (path : Path) : string :=
  "Cell " +:+ path_str path +:+ " failed due to linear algebra error".

Definition est_ (x : string) : string := "est_" +:+ x.

(** The statements of the loop body after a successful run: the estimates
    are appended to the raw data, averaged by cycle and added to the cycle
    statistics. *)
Definition append_estimates (cell : BatteryDataset) (output : DataFrame)
    : result BatteryDataset :=
  raw ← join (raw_data cell) (rename est_ output);
  cyc ← getitem raw "cycle_number";
  output ← setitem output "cycle_number" cyc;
  means ← groupby_mean output "cycle_number";
  let by_cycle := reset_index means in
  means ← drop_column "cycle_number" by_cycle;
  stats ← join (cycle_stats cell) (rename est_ means);
  inr (mkDataset raw stats).

(** What one pass through the loop body leaves: the loop goes on, or an
    exception leaves the loop. *)
Inductive outcome :=
| Continue (w : world)
| Raise (e : exn) (w : world).

Definition world_of (o : outcome) : world :=
  match o with Continue w | Raise _ w => w end.

Definition loop_body (initial_asoh : loc) (w : world) (path : Path) : outcome :=
  let out_path := joinpath estimate_dir (name path) in
  if decide (is_Some (files w !! out_path)) then Continue w
  else
    (* read the cell *)
    match files w !! path with
    | None => Raise FileNotFoundError w
    | Some cell =>
        match create_estimator initial_asoh cell (objects w) with
        | inl e => Raise e w
        | inr (h1, estimator) =>
            let '(h2, r) := run_online_estimate cell estimator h1 in
            let ran := (path, estimator) :: estimations w in
            match r with
            | inl LinAlgError =>
                Continue (mkWorld h2 (files w)
                  (stdout w ++ [failure_message path]) ran)
            | inl e => Raise e (mkWorld h2 (files w) (stdout w) ran)
            | inr output =>
                match append_estimates cell output with
                | inl e => Raise e (mkWorld h2 (files w) (stdout w) ran)
                | inr cell' =>
                    Continue (mkWorld h2 (<[out_path := cell']> (files w))
                                (stdout w) ran)
                end
            end
        end
    end.

Fixpoint batch_loop (initial_asoh : loc) (all_cells : list Path) (w : world)
    : outcome :=
  match all_cells with
  | [] => Continue w
  | path :: rest =>
      match loop_body initial_asoh w path with
      | Continue w' => batch_loop initial_asoh rest w'
      | Raise e w' => Raise e w'
      end
  end.

(** The run of the cell at [path] raises a linear-algebra error in the
    world [w]: the cell has no output yet, its file is read, the estimator
    is built, and [run_online_estimate] raises [LinAlgError]. *)
Definition linalg_failure (initial_asoh : loc) (w : world) (path : Path) : Prop :=
  files w !! joinpath estimate_dir (name path) = None ∧
  ∃ cell h1 est h2,
    files w !! path = Some cell ∧
    create_estimator initial_asoh cell (objects w) = inr (h1, est) ∧
    run_online_estimate cell est h1 = (h2, inl LinAlgError).

End Notebook.

(** ** Concrete scenarios *)

(** A small filter core for running the notebook on examples: the core is
    the joint mean; a step moves the state of charge by the current and
    fails with a linear-algebra error on a missing voltage (a NaN
    measurement leaves no covariance to factor). *)
Definition toy_step (core : list Q) (s : Sample) : result (list Q * Posterior) :=
  match sample_voltage s, core with
  | None, _ => inl LinAlgError
  | Some v, c :: rest =>
      let mean := (c - default 0 (sample_current s) / 10)%Q :: rest in
      inr (mean, mkPosterior (Qred <$> mean) (replicate (length mean) 0.5%Q))
  | Some v, [] => inr ([], mkPosterior [] [])
  end.

Definition toy_moirae : Moirae := {|
  from_asoh := λ _, mkTransient 0 0;
  ukf := list Q;
  ukf_initialize := λ _ a tr,
    [soc tr; hyst tr] ++ updatable_values (v_q_t a) ++ updatable_values (v_r0 a);
  ukf_step := toy_step
|}.

(** The objects loaded from [initial-asoh.json]: capacity 10, two
    resistance values, a two-point OCV curve. *)
Definition loaded_heap : heap :=
  <[5%positive := OECMASOH 1%positive 2%positive 4%positive]>
  (<[4%positive := OOpenCircuitVoltage 3%positive]>
  (<[3%positive := ORefOCV (mkRefOCV [3; 4]%Q [0; 1]%Q "linear")]>
  (<[2%positive := OHealth (mkHealth [0.01; 0.02]%Q [])]>
  (<[1%positive := OHealth (mkHealth [10]%Q [])]> ∅)))).

Definition asoh_loc : loc := 5%positive.

Definition configured_heap : heap :=
  match configure loaded_heap asoh_loc with
  | inr h => h
  | inl _ => ∅
  end.

Definition fl (z : Z) : value := Some (inject_Z z).

(** Four samples in two cycles numbered 0 and 1. *)
Definition cell_a : BatteryDataset :=
  mkDataset
    (mkFrame [0; 1; 2; 3]%Z
       [("test_time", [fl 0; fl 1; fl 2; fl 3]);
        ("current", [fl 1; fl 1; fl (-1); fl (-1)]);
        ("voltage", [fl 4; fl 4; fl 3; fl 3]);
        ("cycle_number", [fl 0; fl 0; fl 1; fl 1])])
    (mkFrame [0; 1]%Z [("cycle_number", [fl 0; fl 1])]).

(** The same cell with the voltage of the third sample missing: its run
    fails at the third step. *)
Definition cell_b : BatteryDataset :=
  mkDataset
    (mkFrame [0; 1; 2; 3]%Z
       [("test_time", [fl 0; fl 1; fl 2; fl 3]);
        ("current", [fl 1; fl 1; fl (-1); fl (-1)]);
        ("voltage", [fl 4; fl 4; NaN; fl 3]);
        ("cycle_number", [fl 0; fl 0; fl 1; fl 1])])
    (mkFrame [0; 1]%Z [("cycle_number", [fl 0; fl 1])]).

(** ... and with the voltage of the first sample missing: its run fails at
    the first step. *)
Definition cell_b' : BatteryDataset :=
  mkDataset
    (mkFrame [0; 1; 2; 3]%Z
       [("test_time", [fl 0; fl 1; fl 2; fl 3]);
        ("current", [fl 1; fl 1; fl (-1); fl (-1)]);
        ("voltage", [NaN; fl 4; fl 3; fl 3]);
        ("cycle_number", [fl 0; fl 0; fl 1; fl 1])])
    (mkFrame [0; 1]%Z [("cycle_number", [fl 0; fl 1])]).

(** A cell whose raw data holds the cycles 1 and 2 only (the samples of
    cycle 0 were filtered out), with statistics for the cycles 0, 1, 2. *)
Definition cell_c : BatteryDataset :=
  mkDataset
    (mkFrame [0; 1; 2; 3]%Z
       [("test_time", [fl 0; fl 1; fl 2; fl 3]);
        ("current", [fl 1; fl 1; fl (-1); fl (-1)]);
        ("voltage", [fl 4; fl 4; fl 3; fl 3]);
        ("cycle_number", [fl 1; fl 1; fl 2; fl 2])])
    (mkFrame [0; 1; 2]%Z [("cycle_number", [fl 0; fl 1; fl 2])]).

Definition path_a : Path := ["synth-data"; "a.hdf5"].
Definition path_b : Path := ["synth-data"; "b.hdf5"].
Definition path_c : Path := ["synth-data"; "c.hdf5"].

Definition start (fs : gmap Path BatteryDataset) : world :=
  mkWorld configured_heap fs [] [].

(** Estimates of the state of charge for the four samples of [cell_c],
    as a run returns them. *)
Definition output_c : DataFrame :=
  mkFrame [0; 1; 2; 3]%Z
    [("soc", [Some 0.9; Some 0.7; Some 0.5; Some 0.3]%Q);
     ("soc_std", [Some 0.1; Some 0.1; Some 0.1; Some 0.1]%Q)].

(** Estimates whose sums and means are exact in binary floating point as
    well. *)
Definition output_d : DataFrame :=
  mkFrame [0; 1; 2; 3]%Z
    [("soc", [Some 1; Some 0.5; Some 0.25; Some 0.25]%Q);
     ("soc_std", [Some 0.5; Some 0.5; Some 0.5; Some 0.5]%Q)].

(** The input files of a batch. *)
Definition batch_files : gmap Path BatteryDataset :=
  <[path_a := cell_a]> (<[path_b := cell_b]> ∅).

(** ** Finding the cells

    [all_cells = sorted(Path('synth-data').glob('*.hdf5'))] *)

(** [path.parent] *)
Definition parent (p : Path) : Path := take (length p - 1) p.

(** [s.endswith(suffix)] *)
Definition endswith (s suffix : string) : bool :=
  bool_decide (String.list_ascii_of_string suffix
                 `suffix_of` String.list_ascii_of_string s).

(** The order of paths: part by part, a part by its characters. *)
Fixpoint path_compare (p q : Path) : comparison :=
  match p, q with
  | [], [] => Eq
  | [], _ :: _ => Lt
  | _ :: _, [] => Gt
  | a :: p', b :: q' =>
      match String.compare a b with
      | Eq => path_compare p' q'
      | c => c
      end
  end.

Definition path_le (p q : Path) : Prop := path_compare p q ≠ Gt.

Global Instance path_le_dec (p q : Path) : Decision (path_le p q).
Proof. unfold path_le. apply _. Defined.

(** An entry of the directory [dir] whose name matches [*.hdf5]. *)
Definition matches_hdf5 (dir p : Path) : bool :=
  bool_decide (p ≠ [] ∧ parent p = dir) && endswith (name p) ".hdf5".

(** [dir.glob('*.hdf5')], in the order the file system lists them.  The
    pattern is matched against the names of all the entries of [dir], the
    files [fs] and the directories [dirs] alike. *)
Definition glob_hdf5 (dir : Path) (dirs : gset Path)
    (fs : gmap Path BatteryDataset) : list Path :=
  filter (λ p, matches_hdf5 dir p = true) (elements (dom fs ∪ dirs)).

Definition sorted_paths (ps : list Path) : list Path := merge_sort path_le ps.

Definition find_cells (dirs : gset Path) (fs : gmap Path BatteryDataset)
    : list Path :=
  sorted_paths (glob_hdf5 ["synth-data"] dirs fs).

(** A directory with two cell files, a file that is no cell file and an
    output of an earlier run. *)
Definition disk : gmap Path BatteryDataset :=
  <[["synth-data"; "b.hdf5"] := cell_b]>
  (<[["synth-data"; "a.hdf5"] := cell_a]>
  (<[["synth-data"; "notes.txt"] := cell_a]>
  (<[["estimates"; "z.hdf5"] := cell_a]> ∅))).

(** The directories of that disk, and the same with a directory whose
    name looks like a cell file. *)
Definition disk_dirs : gset Path := {[ ["synth-data"]; ["estimates"] ]}.

Definition disk_dirs' : gset Path :=
  {[ ["synth-data"]; ["estimates"]; ["synth-data"; "archive.hdf5"] ]}.

(** A cell file without any sample. *)
Definition cell_empty : BatteryDataset :=
  mkDataset
    (mkFrame [] [("test_time", []); ("current", []); ("voltage", []);
                 ("cycle_number", [])])
    (mkFrame [] [("cycle_number", [])]).

(* ===================================================================== *)
(** * Part II: properties *)
(* ===================================================================== *)

(** ** Fallible computations *)

Lemma bind_inr {A B} (m : result A) (k : A → result B) (b : B) :
  m ≫= k = inr b → ∃ a, m = inr a ∧ k a = inr b.
Proof. destruct m as [e|a]; [discriminate | eauto]. Qed.

Ltac inv_result :=
  repeat match goal with
    | H : (_ ≫= _) = inr _ |- _ =>
        apply bind_inr in H; destruct H as (? & ? & H)
    | H : inl _ = inr _ |- _ => discriminate H
    | H : inr _ = inr _ |- _ => injection H as H
    | H : (let '(_, _) := ?p in _) = _ |- _ => destruct p eqn:?
    end.

(** ** The padded OCV table *)

Section OCV.
Local Open Scope Q_scope.

Lemma interp_linear_defined (xs ys : list Q) (x0 y0 x : Q) :
  length xs = length ys → xs ≠ [] →
  x0 <= x → x <= default x0 (last xs) →
  is_Some (interp_linear (x0 :: xs) (y0 :: ys) x).
Proof.
  revert ys x0 y0. induction xs as [|x1 xs IH]; intros ys x0 y0 Hlen Hne Hlo Hhi.
  - done.
  - destruct ys as [|y1 ys]; [done|]. simpl in Hlen.
    cbn [interp_linear].
    destruct (Qle_bool x0 x && Qle_bool x x1) eqn:Hb; [eauto|].
    apply andb_false_iff in Hb. destruct Hb as [Hb|Hb].
    { apply Qle_bool_iff in Hlo. congruence. }
    assert (Hlt : x1 < x).
    { apply Qnot_le_lt. intros Hle%Qle_bool_iff. congruence. }
    destruct xs as [|x2 xs].
    + simpl in Hhi. exfalso. apply (Qlt_irrefl x). by eapply Qle_lt_trans.
    + apply IH; [lia | done | by apply Qlt_le_weak |].
      rewrite last_cons_cons in Hhi.
      destruct (last (x2 :: xs)) eqn:Hl; [done|]. by apply last_None in Hl.
Qed.

Lemma last_pad_soc_pinpoints old : last (pad_soc_pinpoints old) = Some 1.1.
Proof. unfold pad_soc_pinpoints. by rewrite !app_assoc, last_snoc. Qed.

Lemma last_pad_base_vals old : last (pad_base_vals old) = Some 6.5.
Proof. unfold pad_base_vals. by rewrite !app_assoc, last_snoc. Qed.

Lemma padded_query_defined (sp bv : list Q) (s : Q) :
  length sp = length bv → 0 <= s → s <= 1 →
  is_Some (ocv_query (mkRefOCV (pad_base_vals bv) (pad_soc_pinpoints sp) "linear") s).
Proof.
  intros Hlen H0 H1. unfold ocv_query.
  cbn [soc_pinpoints ref_base_values interpolation_style].
  rewrite (decide_True (P := "linear" = "linear")) by done.
  rewrite decide_True.
  2:{ unfold pad_soc_pinpoints, pad_base_vals. rewrite !length_app. simpl. lia. }
  unfold pad_soc_pinpoints, pad_base_vals. cbn [app].
  apply interp_linear_defined.
  - rewrite !length_app. simpl. lia.
  - by destruct sp.
  - lra.
  - rewrite last_snoc. simpl. lra.
Qed.

End OCV.

(** ** Reading the heap *)

Ltac inv_heap :=
  repeat match goal with
    | H : attr_q_t ?h ?l = inr _ |- _ =>
        unfold attr_q_t in H; destruct (h !! l) as [[]|] eqn:?; simplify_eq
    | H : attr_r0 ?h ?l = inr _ |- _ =>
        unfold attr_r0 in H; destruct (h !! l) as [[]|] eqn:?; simplify_eq
    | H : attr_ocv ?h ?l = inr _ |- _ =>
        unfold attr_ocv in H; destruct (h !! l) as [[]|] eqn:?; simplify_eq
    | H : attr_ocv_ref ?h ?l = inr _ |- _ =>
        unfold attr_ocv_ref in H; destruct (h !! l) as [[]|] eqn:?; simplify_eq
    | H : get_health ?h ?l = inr _ |- _ =>
        unfold get_health in H; destruct (h !! l) as [[]|] eqn:?; simplify_eq
    | H : get_ref_ocv ?h ?l = inr _ |- _ =>
        unfold get_ref_ocv in H; destruct (h !! l) as [[]|] eqn:?; simplify_eq
    | H : get_transient ?h ?l = inr _ |- _ =>
        unfold get_transient in H; destruct (h !! l) as [[]|] eqn:?; simplify_eq
    end.

Lemma reference_ocv_lookup (h : heap) (asoh : loc) (c : ReferenceOCV) :
  reference_ocv h asoh = inr c ↔
  ∃ q r ol rf, h !! asoh = Some (OECMASOH q r ol) ∧
               h !! ol = Some (OOpenCircuitVoltage rf) ∧
               h !! rf = Some (ORefOCV c).
Proof.
  split.
  - unfold reference_ocv. intros Hc. inv_result. inv_heap. eauto 10.
  - intros (q & r & ol & rf & Ha & Ho & Hr).
    unfold reference_ocv, attr_ocv, attr_ocv_ref, get_ref_ocv.
    rewrite Ha. simpl. rewrite Ho. simpl. by rewrite Hr.
Qed.

(** C3: after the padding of the configuration cell the SOC pinpoints of
    the reference OCV start at -0.1 and end at 1.1, strictly outside
    [0,1], the base values start at the sentinel 0 and end at the sentinel
    6.5, one value per pinpoint, and a linear-interpolation query at any
    state of charge in [0,1], the two boundaries included, is defined. *)
Theorem padded_ocv_defined_on_unit_interval
    (h : heap) (initial_asoh : loc) (c : ReferenceOCV) :
  reference_ocv h initial_asoh = inr c →
  length (soc_pinpoints c) = length (ref_base_values c) →
  ∃ h' c',
    fix_reference_ocv h initial_asoh = inr h' ∧
    reference_ocv h' initial_asoh = inr c' ∧
    soc_pinpoints c' = [-0.1]%Q ++ soc_pinpoints c ++ [1.1]%Q ∧
    ref_base_values c' = [0]%Q ++ ref_base_values c ++ [6.5]%Q ∧
    head (soc_pinpoints c') = Some (-0.1)%Q ∧
    last (soc_pinpoints c') = Some 1.1%Q ∧
    head (ref_base_values c') = Some 0%Q ∧
    last (ref_base_values c') = Some 6.5%Q ∧
    (-0.1 < 0)%Q ∧ (1 < 1.1)%Q ∧
    length (soc_pinpoints c') = length (ref_base_values c') ∧
    interpolation_style c' = "linear" ∧
    ∀ s : Q, (0 <= s)%Q → (s <= 1)%Q → is_Some (ocv_query c' s).
Proof.
  intros Hc Hlen.
  pose proof Hc as (q & r & ol & rf & Ha & Ho & Hr)%reference_ocv_lookup.
  set (c' := mkRefOCV (pad_base_vals (ref_base_values c))
                      (pad_soc_pinpoints (soc_pinpoints c)) "linear").
  exists (<[rf := ORefOCV c']> h), c'.
  split.
  { unfold fix_reference_ocv, attr_ocv, attr_ocv_ref, get_ref_ocv.
    rewrite Ha. simpl. rewrite Ho. simpl. by rewrite Hr. }
  split.
  { apply reference_ocv_lookup. exists q, r, ol, rf.
    rewrite !lookup_insert_ne by congruence.
    by rewrite lookup_insert_eq. }
  split; [done|]. split; [done|]. split; [done|].
  split; [apply last_pad_soc_pinpoints|].
  split; [done|].
  split; [apply last_pad_base_vals|].
  split; [reflexivity|]. split; [reflexivity|].
  split.
  { simpl. rewrite !length_app. simpl. lia. }
  split; [done|].
  intros s H0 H1. by apply padded_query_defined.
Qed.

Lemma padded_ocv_defined_on_unit_interval_witness :
  reference_ocv loaded_heap asoh_loc = inr (mkRefOCV [3; 4]%Q [0; 1]%Q "linear") ∧
  ∃ h' c',
    fix_reference_ocv loaded_heap asoh_loc = inr h' ∧
    reference_ocv h' asoh_loc = inr c' ∧
    soc_pinpoints c' = [-0.1; 0; 1; 1.1]%Q ∧
    ref_base_values c' = [0; 3; 4; 6.5]%Q ∧
    head (soc_pinpoints c') = Some (-0.1)%Q ∧
    last (soc_pinpoints c') = Some 1.1%Q ∧
    head (ref_base_values c') = Some 0%Q ∧
    last (ref_base_values c') = Some 6.5%Q ∧
    (-0.1 < 0)%Q ∧ (1 < 1.1)%Q ∧
    length (soc_pinpoints c') = length (ref_base_values c') ∧
    interpolation_style c' = "linear" ∧
    ∀ s : Q, (0 <= s)%Q → (s <= 1)%Q → is_Some (ocv_query c' s).
Proof.
  split; [reflexivity|].
  apply (padded_ocv_defined_on_unit_interval loaded_heap asoh_loc
           (mkRefOCV [3; 4]%Q [0; 1]%Q "linear")); reflexivity.
Defined.

(** ** Diagonal matrices *)

Section Matrices.
Local Open Scope Q_scope.

Notation "v .[ i ]" := (default 0 (v !! i)) (at level 1, format "v .[ i ]").

Lemma Qsum_nonneg (l : list Q) : Forall (λ x, 0 <= x) l → 0 <= Qsum l.
Proof.
  induction 1 as [|x l Hx _ IH]; simpl; [lra|].
  change (foldr Qplus 0 l) with (Qsum l). lra.
Qed.

Lemma dot_cons (a b : Q) (u v : list Q) :
  dot (a :: u) (b :: v) = a * b + dot u v.
Proof. reflexivity. Qed.

Lemma dot_nil_r (u : list Q) : dot u [] = 0.
Proof. by destruct u. Qed.

Lemma dot_zero_row (row x : list Q) :
  (∀ j, row.[j] == 0) → dot row x == 0.
Proof.
  revert x. induction row as [|r row IH]; intros x Hz; [reflexivity|].
  destruct x as [|a x]; [reflexivity|].
  rewrite dot_cons, IH.
  - pose proof (Hz 0%nat) as H0. simpl in H0. rewrite H0. ring.
  - intros j. apply (Hz (S j)).
Qed.

(** A row whose entries vanish away from position [i] picks the [i]-th
    component of a vector. *)
Lemma dot_single (row x : list Q) (i : nat) :
  (∀ j, j ≠ i → row.[j] == 0) → dot row x == row.[i] * x.[i].
Proof.
  revert x i. induction row as [|r row IH]; intros x i Hz.
  - simpl. unfold dot. simpl. ring.
  - destruct x as [|a x].
    + rewrite dot_nil_r. simpl. ring.
    + rewrite dot_cons. destruct i as [|i].
      * rewrite dot_zero_row; [simpl; ring|].
        intros j. apply (Hz (S j)). lia.
      * rewrite (IH x i).
        -- pose proof (Hz 0%nat ltac:(lia)) as H0. simpl in H0.
           simpl. rewrite H0. ring.
        -- intros j Hj. apply (Hz (S j)). lia.
Qed.

Lemma dot_nonneg (u v : list Q) :
  (∀ i, 0 <= u.[i] * v.[i]) → 0 <= dot u v.
Proof.
  revert v. induction u as [|a u IH]; intros v Hp.
  - unfold dot. simpl. lra.
  - destruct v as [|b v]; [rewrite dot_nil_r; lra|].
    rewrite dot_cons.
    pose proof (Hp 0%nat) as H0. simpl in H0.
    assert (0 <= dot u v) by (apply IH; intros i; apply (Hp (S i))).
    lra.
Qed.

Lemma entry_row (m : matrix) (i j : nat) (row : list Q) :
  m !! i = Some row → entry m i j = row.[j].
Proof. intros Hr. unfold entry. by rewrite Hr. Qed.

Lemma entry_out (m : matrix) (i j : nat) : m !! i = None → entry m i j = 0.
Proof. intros Hr. unfold entry. by rewrite Hr. Qed.

Lemma diagonal_symmetric (m : matrix) : is_diagonal m → symmetric m.
Proof.
  intros Hd i j. destruct (decide (i = j)) as [->|Hne]; [reflexivity|].
  rewrite (Hd i j), (Hd j i) by done. reflexivity.
Qed.

Lemma diagonal_psd (m : matrix) :
  is_diagonal m → nonneg_diagonal m → positive_semi_definite m.
Proof.
  intros Hd Hn x _. unfold quad_form. apply dot_nonneg. intros i.
  rewrite list_lookup_fmap.
  destruct (m !! i) as [row|] eqn:Hr; simpl; [|nra].
  rewrite (dot_single row x i).
  - pose proof (Hn i) as Hi. rewrite (entry_row _ _ _ _ Hr) in Hi. nra.
  - intros j Hj. rewrite <- (entry_row _ _ _ _ Hr). apply Hd. lia.
Qed.

Lemma diagonal_valid (m : matrix) :
  is_square m → is_diagonal m → nonneg_diagonal m → valid_covariance m.
Proof.
  intros Hs Hd Hn. split; [done|].
  split; [by apply diagonal_symmetric | by apply diagonal_psd].
Qed.

(** *** [np.diag] *)

Lemma np_diag_lookup (l : list Q) (i : nat) :
  np_diag l !! i =
  (λ d, replicate i 0 ++ d :: replicate (length l - S i) 0) <$> l !! i.
Proof. unfold np_diag. by rewrite list_lookup_imap. Qed.

Lemma entry_np_diag (l : list Q) (i j : nat) :
  entry (np_diag l) i j = if decide (i = j) then l.[i] else 0.
Proof.
  unfold entry. rewrite np_diag_lookup.
  destruct (l !! i) as [d|] eqn:Hl; simpl; [|by case_decide].
  case_decide as Hij.
  - subst j. rewrite lookup_app_r by (rewrite length_replicate; lia).
    rewrite length_replicate. by replace (i - i)%nat with 0%nat by lia.
  - destruct (decide (j < i)%nat).
    + rewrite lookup_app_l by (rewrite length_replicate; lia).
      by rewrite lookup_replicate_2.
    + rewrite lookup_app_r by (rewrite length_replicate; lia).
      rewrite length_replicate.
      destruct (j - i)%nat as [|k] eqn:Hk; [lia|]. simpl.
      destruct (replicate (length l - S i) 0 !! k) as [z|] eqn:Hz; [|done].
      apply lookup_replicate in Hz as [-> _]. done.
Qed.

Lemma length_np_diag (l : list Q) : length (np_diag l) = length l.
Proof. unfold np_diag. by rewrite length_imap. Qed.

Lemma np_diag_square (l : list Q) : is_square (np_diag l).
Proof.
  unfold is_square. rewrite length_np_diag. apply Forall_lookup_2.
  intros i row Hrow. rewrite np_diag_lookup in Hrow.
  destruct (l !! i) as [d|] eqn:Hl; simplify_eq/=.
  apply lookup_lt_Some in Hl.
  rewrite length_app, length_replicate. simpl. rewrite length_replicate. lia.
Qed.

Lemma np_diag_diagonal (l : list Q) : is_diagonal (np_diag l).
Proof. intros i j Hij. rewrite entry_np_diag, decide_False by done. reflexivity. Qed.

Lemma np_diag_nonneg (l : list Q) :
  Forall (λ d, 0 <= d) l → nonneg_diagonal (np_diag l).
Proof.
  intros Hl i. rewrite entry_np_diag, decide_True by done.
  destruct (l !! i) as [d|] eqn:Hd; simpl; [|lra].
  by eapply (Forall_lookup_1 _ _ _ _ Hl).
Qed.

(** *** Scalar multiples *)

Lemma entry_scale (c : Q) (m : matrix) (i j : nat) :
  entry (scale c m) i j == c * entry m i j.
Proof.
  unfold entry, scale. rewrite list_lookup_fmap.
  destruct (m !! i) as [row|]; simpl; [|ring].
  rewrite list_lookup_fmap. destruct (row !! j); simpl; ring.
Qed.

Lemma scale_square (c : Q) (m : matrix) : is_square m → is_square (scale c m).
Proof.
  unfold is_square, scale. rewrite length_map. intros Hs.
  apply Forall_fmap. eapply Forall_impl; [done|].
  intros row Hrow. simpl. by rewrite length_map.
Qed.

Lemma scale_diagonal (c : Q) (m : matrix) : is_diagonal m → is_diagonal (scale c m).
Proof. intros Hd i j Hij. rewrite entry_scale, (Hd i j) by done. ring. Qed.

Lemma scale_nonneg (c : Q) (m : matrix) :
  0 <= c → nonneg_diagonal m → nonneg_diagonal (scale c m).
Proof. intros Hc Hn i. rewrite entry_scale. pose proof (Hn i). nra. Qed.

Lemma scaled_eye_valid (c : Q) (n : nat) :
  0 <= c →
  is_diagonal (scale c (np_eye n)) ∧ nonneg_diagonal (scale c (np_eye n)) ∧
  valid_covariance (scale c (np_eye n)).
Proof.
  intros Hc.
  assert (Hd : is_diagonal (scale c (np_eye n)))
    by apply scale_diagonal, np_diag_diagonal.
  assert (Hn : nonneg_diagonal (scale c (np_eye n))).
  { apply scale_nonneg; [done|]. apply np_diag_nonneg.
    apply Forall_replicate. lra. }
  split; [done|]. split; [done|].
  apply diagonal_valid; [|done..]. apply scale_square, np_diag_square.
Qed.

Lemma np_diag_valid (l : list Q) :
  Forall (λ d, 0 <= d) l →
  is_diagonal (np_diag l) ∧ nonneg_diagonal (np_diag l) ∧
  valid_covariance (np_diag l).
Proof.
  intros Hl. split; [apply np_diag_diagonal|].
  split; [by apply np_diag_nonneg|].
  apply diagonal_valid;
    [apply np_diag_square | apply np_diag_diagonal | by apply np_diag_nonneg].
Qed.

Lemma Qsquare_nonneg (x : Q) : 0 <= x ^ 2.
Proof. change (x ^ 2) with (x * x). nra. Qed.

End Matrices.

(** ** [create_estimator] *)

Section Estimator.
Context `{Moirae}.

Lemma create_estimator_inv (initial_asoh : loc) (dataset : BatteryDataset)
    (h h' : heap) (est : JointEstimator) :
  create_estimator initial_asoh dataset h = inr (h', est) →
  ∃ ql q_t q rl r0 a t0 i0,
    attr_q_t h initial_asoh = inr ql ∧ get_health h ql = inr q_t ∧
    base_values q_t = [q] ∧
    attr_r0 h initial_asoh = inr rl ∧ get_health h rl = inr r0 ∧
    read_asoh h initial_asoh = inr a ∧
    getitem (raw_data dataset) "test_time" ≫= iloc0 = inr t0 ∧
    getitem (raw_data dataset) "current" ≫= iloc0 = inr i0 ∧
    let asoh_covariance :=
      np_diag ([(2.5e-03 * q) ^ 2]%Q ++
               ((λ r, (2.5e-03 * r) ^ 2)%Q <$> base_values r0)) in
    let tl := fresh (dom h) in
    let h2 := <[tl := OTransient (mkTransient 1 (hyst (from_asoh a)))]> h in
    model_copy_deep h2 initial_asoh = inr (h', initial_asoh_of est) ∧
    est = mkEstimator (initial_asoh_of est) (mkInput t0 i0) tl
            asoh_covariance
            (np_diag [1/12; 2.5e-07]%Q)
            (scale 1.0e-08%Q (np_eye 2))
            (scale 1.0e-10%Q (np_eye (shape0 asoh_covariance)))
            (scale ((1.0e-03 / 2) ^ 2)%Q (np_eye 1)).
Proof.
  unfold create_estimator. intros Hc.
  apply bind_inr in Hc as (ql & Hql & Hc).
  apply bind_inr in Hc as (q_t & Hqt & Hc).
  apply bind_inr in Hc as (q & Hq & Hc).
  apply bind_inr in Hc as (rl & Hrl & Hc).
  apply bind_inr in Hc as (r0 & Hr0 & Hc).
  apply bind_inr in Hc as (a & Ha & Hc).
  unfold alloc in Hc. cbv zeta in Hc. rewrite alter_insert_eq in Hc.
  apply bind_inr in Hc as ([h3 copy] & Hcopy & Hc).
  apply bind_inr in Hc as (t0 & Ht0 & Hc).
  apply bind_inr in Hc as (i0 & Hi0 & Hc).
  injection Hc as <- <-.
  exists ql, q_t, q, rl, r0, a, t0, i0.
  repeat (split; [done|]).
  split; [|repeat (split; [done|]); done].
  unfold item in Hq. destruct (base_values q_t) as [|? []]; by simplify_eq.
Qed.

(** C4: every covariance that [create_estimator] supplies to the filter
    factory (the ASOH block, the transient block, the two process-noise
    blocks and the sensor-noise covariance) is diagonal with non-negative
    entries, hence symmetric positive semi-definite, so the factory's
    InvalidCovarianceError is never raised for them. *)
Theorem supplied_covariances_valid (initial_asoh : loc)
    (dataset : BatteryDataset) (h h' : heap) (est : JointEstimator) :
  create_estimator initial_asoh dataset h = inr (h', est) →
  ∀ m, m ∈ covariances est →
    is_diagonal m ∧ nonneg_diagonal m ∧
    symmetric m ∧ positive_semi_definite m ∧
    valid_covariance m ∧ ¬ raises_InvalidCovarianceError m.
Proof.
  intros Hc m Hm.
  cut (is_diagonal m ∧ nonneg_diagonal m ∧ valid_covariance m).
  { intros (Hd & Hn & Hv). pose proof Hv as (_ & Hsym & Hpsd).
    unfold raises_InvalidCovarianceError. tauto. }
  apply create_estimator_inv in Hc
    as (ql & q_t & q & rl & r0 & a & t0 & i0 & _ & _ & _ & _ & _ & _ & _ & _ & Hc).
  cbv zeta in Hc. destruct Hc as [_ Hest].
  unfold covariances in Hm. rewrite Hest in Hm. cbn [covariance_asoh covariance_transient
    transient_covariance_process_noise asoh_covariance_process_noise
    covariance_sensor_noise] in Hm.
  repeat (apply elem_of_cons in Hm as [->|Hm]).
  - apply np_diag_valid. apply Forall_app. split.
    + repeat constructor. apply Qsquare_nonneg.
    + apply Forall_fmap, Forall_forall. intros r _. apply Qsquare_nonneg.
  - apply np_diag_valid. repeat constructor; unfold Qle; simpl; lia.
  - apply scaled_eye_valid. unfold Qle; simpl; lia.
  - apply scaled_eye_valid. unfold Qle; simpl; lia.
  - apply scaled_eye_valid. apply Qsquare_nonneg.
  - by apply elem_of_nil in Hm.
Qed.

(** C9: the estimator built by [create_estimator] depends on the dataset
    only through the time and the current of its first sample: two
    datasets whose first raw-data row agrees on [test_time] and [current]
    give the same estimator (and the same heap). *)
Theorem create_estimator_first_sample_only (initial_asoh : loc)
    (d1 d2 : BatteryDataset) (h : heap) (t i : value) :
  getitem (raw_data d1) "test_time" ≫= iloc0 = inr t →
  getitem (raw_data d2) "test_time" ≫= iloc0 = inr t →
  getitem (raw_data d1) "current" ≫= iloc0 = inr i →
  getitem (raw_data d2) "current" ≫= iloc0 = inr i →
  create_estimator initial_asoh d1 h = create_estimator initial_asoh d2 h.
Proof.
  intros Ht1 Ht2 Hi1 Hi2. unfold create_estimator.
  by rewrite Ht1, Ht2, Hi1, Hi2.
Qed.

End Estimator.

Lemma supplied_covariances_valid_witness :
  ∃ h' est,
    @create_estimator toy_moirae asoh_loc cell_a configured_heap = inr (h', est) ∧
    ∀ m, m ∈ covariances est →
      is_diagonal m ∧ nonneg_diagonal m ∧
      symmetric m ∧ positive_semi_definite m ∧
      valid_covariance m ∧ ¬ raises_InvalidCovarianceError m.
Proof.
  destruct (@create_estimator toy_moirae asoh_loc cell_a configured_heap)
    as [e|[h' est]] eqn:Hc; [vm_compute in Hc; discriminate|].
  exists h', est. split; [reflexivity|].
  exact (@supplied_covariances_valid toy_moirae asoh_loc cell_a configured_heap
           h' est Hc).
Defined.

Lemma create_estimator_first_sample_only_witness :
  @create_estimator toy_moirae asoh_loc cell_a configured_heap =
  @create_estimator toy_moirae asoh_loc cell_b configured_heap.
Proof.
  apply (@create_estimator_first_sample_only toy_moirae asoh_loc cell_a cell_b
           configured_heap (fl 0) (fl 1)); reflexivity.
Defined.

(** ** Data frames: the left join on the index *)

Section Frames.

Lemma positions_bound (l : Z) (idx : list Z) (j k : nat) :
  k ∈ positions l idx j → (j ≤ k)%nat ∧ idx !! (k - j)%nat = Some l.
Proof.
  revert j. induction idx as [|a idx IH]; intros j Hk; simpl in Hk.
  - by apply elem_of_nil in Hk.
  - apply elem_of_app in Hk as [Hk|Hk].
    + case_decide; [|by apply elem_of_nil in Hk].
      apply list_elem_of_singleton in Hk as ->. subst a.
      split; [lia|]. by replace (j - j)%nat with 0%nat by lia.
    + apply IH in Hk as [Hle Hk]. split; [lia|].
      by replace (k - j)%nat with (S (k - S j)) by lia.
Qed.

Lemma positions_absent (l : Z) (idx : list Z) (j : nat) :
  l ∉ idx → positions l idx j = [].
Proof.
  revert j. induction idx as [|a idx IH]; intros j Hl; [done|].
  apply not_elem_of_cons in Hl as [Hne Hl]. simpl.
  rewrite decide_False by done. by apply IH.
Qed.

(** In an index without duplicate labels a label has at most one
    position. *)
Lemma positions_unique (l : Z) (idx : list Z) (j : nat) :
  NoDup idx → positions l idx j = [] ∨ ∃ k, positions l idx j = [k].
Proof.
  intros Hnd. revert j. induction Hnd as [|a idx Ha Hnd IH]; intros j; [by left|].
  simpl. case_decide as Hal.
  - subst a. right. exists j. by rewrite positions_absent.
  - apply IH.
Qed.

Lemma join_plan_left {A} (F : nat → A) (li ri : list Z) (i : nat) :
  NoDup ri →
  (λ p : nat * option nat, F p.1) <$> join_plan li ri i = F <$> seq i (length li).
Proof.
  intros Hnd. revert i. induction li as [|l li IH]; intros i; [done|].
  simpl. rewrite fmap_app, IH. f_equal.
  destruct (positions_unique l ri 0 Hnd) as [->|[k ->]]; done.
Qed.

Lemma join_plan_right {A} (G : option nat → A) (li ri : list Z) (i k : nat) (l : Z) :
  NoDup ri → li !! k = Some l →
  ((λ p : nat * option nat, G p.2) <$> join_plan li ri i) !! k
  = Some (G (head (positions l ri 0))).
Proof.
  intros Hnd. revert i k. induction li as [|a li IH]; intros i k Hk; [done|].
  cbn [join_plan].
  destruct (positions_unique a ri 0 Hnd) as [Hp|[j Hp]]; rewrite Hp;
    (destruct k as [|k]; simpl in *;
     [simplify_eq; by rewrite Hp | by apply IH]).
Qed.

Lemma fmap_lookup_seq (vs : list value) :
  (λ k, default NaN (vs !! k)) <$> seq 0 (length vs) = vs.
Proof.
  apply list_eq. intros i. rewrite list_lookup_fmap.
  destruct (vs !! i) as [v|] eqn:Hv.
  - rewrite lookup_seq_lt by (by eapply lookup_lt_Some). simpl. by rewrite Hv.
  - rewrite lookup_seq_ge; [done|]. by apply lookup_ge_None.
Qed.

Lemma fmap_index_seq (idx : list Z) :
  (λ k, default 0%Z (idx !! k)) <$> seq 0 (length idx) = idx.
Proof.
  apply list_eq. intros i. rewrite list_lookup_fmap.
  destruct (idx !! i) as [v|] eqn:Hv.
  - rewrite lookup_seq_lt by (by eapply lookup_lt_Some). simpl. by rewrite Hv.
  - rewrite lookup_seq_ge; [done|]. by apply lookup_ge_None.
Qed.

Lemma take_left_id (li ri : list Z) (vs : list value) :
  NoDup ri → length vs = length li →
  take_left (join_plan li ri 0) vs = vs.
Proof.
  intros Hnd Hlen. unfold take_left.
  rewrite (join_plan_left (λ k, default NaN (vs !! k))) by done.
  rewrite <- Hlen. apply fmap_lookup_seq.
Qed.

Lemma overlap_false (l r : list string) (n : string) :
  overlap l r = false → n ∈ l → n ∉ r.
Proof.
  unfold overlap. intros Ho Hl Hr. apply bool_decide_eq_false in Ho.
  apply Ho, Exists_exists. eauto.
Qed.

Lemma assoc_None (n : string) (cols : list (string * list value)) :
  assoc n cols = None ↔ n ∉ cols.*1.
Proof.
  induction cols as [|[m vs] cols IH]; simpl.
  - split; [intros _; apply not_elem_of_nil | done].
  - case_decide as Hm.
    + subst m. split; [done|]. intros Hn. exfalso. apply Hn. left.
    + rewrite IH, not_elem_of_cons. split; [by intros ? | by intros [_ ?]].
Qed.

Lemma assoc_Some_elem (n : string) (cols : list (string * list value)) vs :
  assoc n cols = Some vs → n ∈ cols.*1.
Proof.
  intros Hs. destruct (decide (n ∈ cols.*1)) as [|Hn]; [done|].
  apply assoc_None in Hn. congruence.
Qed.

Lemma assoc_app (n : string) (c1 c2 : list (string * list value)) :
  assoc n (c1 ++ c2) =
  match assoc n c1 with Some vs => Some vs | None => assoc n c2 end.
Proof.
  induction c1 as [|[m vs] c1 IH]; simpl; [done|]. by case_decide.
Qed.

Lemma assoc_fmap_values (g : list value → list value) (n : string)
    (cols : list (string * list value)) :
  assoc n (prod_map id g <$> cols) = g <$> assoc n cols.
Proof.
  induction cols as [|[m vs] cols IH]; simpl; [done|]. by case_decide.
Qed.

Lemma est_inj (x y : string) : est_ x = est_ y → x = y.
Proof. intros Hxy. unfold est_ in Hxy. by simplify_eq/=. Qed.

Lemma assoc_rename_est (n : string) (cols : list (string * list value)) :
  assoc (est_ n) (prod_map est_ id <$> cols) = assoc n cols.
Proof.
  induction cols as [|[m vs] cols IH]; simpl; [done|].
  destruct (decide (m = n)) as [->|Hne].
  - by rewrite decide_True.
  - rewrite decide_False; [done|]. by intros ?%est_inj.
Qed.

Lemma est_std (x : string) : est_ (x +:+ "_std") = est_ x +:+ "_std".
Proof. reflexivity. Qed.

(** The left join keeps the rows and the columns of the left frame and
    adds the columns of the right frame, aligned by label. *)
Lemma join_spec (left right joined : DataFrame) :
  wf_frame left → NoDup (index right) →
  join left right = inr joined →
  index joined = index left ∧
  column_names joined = column_names left ++ column_names right ∧
  (∀ n vs, assoc n (columns left) = Some vs →
           assoc n (columns joined) = Some vs) ∧
  (∀ n vs, assoc n (columns right) = Some vs →
     ∃ vs', assoc n (columns joined) = Some vs' ∧
            length vs' = length (index left) ∧
            ∀ i l, index left !! i = Some l →
              vs' !! i = Some (match positions l (index right) 0 with
                               | j :: _ => default NaN (vs !! j)
                               | [] => NaN
                               end)).
Proof.
  intros Hwf Hnd Hj. unfold join in Hj.
  destruct (overlap _ _) eqn:Ho; [done|]. injection Hj as <-. simpl.
  split.
  { rewrite (join_plan_left (λ k, default 0%Z (index left !! k))) by done.
    apply fmap_index_seq. }
  split.
  { unfold column_names. simpl. rewrite fmap_app, <- !list_fmap_compose.
    f_equal; apply list_fmap_ext; by intros ? []. }
  split.
  - intros n vs Hn. rewrite assoc_app, assoc_fmap_values, Hn. simpl.
    f_equal. apply take_left_id; [done|].
    unfold wf_frame in Hwf. rewrite Forall_forall in Hwf.
    assert (Hin : (n, vs) ∈ columns left).
    { clear -Hn. induction (columns left) as [|[m ws] cols IH]; [done|].
      simpl in Hn. case_decide; simplify_eq; [left | right; auto]. }
    apply (Hwf _ Hin).
  - intros n vs Hn.
    assert (Hnl : assoc n (columns left) = None).
    { apply assoc_None. intros Hl.
      apply (overlap_false _ _ _ Ho Hl). by eapply assoc_Some_elem. }
    rewrite assoc_app, assoc_fmap_values, Hnl, assoc_fmap_values, Hn. simpl.
    eexists. split; [done|]. split.
    { unfold take_right. rewrite length_fmap.
      rewrite <- (length_fmap (λ p : nat * option nat, p.1)).
      rewrite (join_plan_left (λ k, k)) by done.
      by rewrite length_fmap, length_seq. }
    intros i l Hl. unfold take_right.
    rewrite (join_plan_right
               (λ o, match o with Some j => default NaN (vs !! j) | None => NaN end)
               _ _ 0 i l Hnd Hl).
    by destruct (positions l (index right) 0).
Qed.

(** A frame without rows takes over the index of the series assigned to
    it; a frame with rows keeps its own. *)
Example setitem_empty_frame :
  setitem (mkFrame [] [("soc", [])]) "cycle_number"
    (mkSeries [0; 1]%Z [fl 1; fl 2])
  = inr (mkFrame [0; 1]%Z [("soc", [NaN; NaN]); ("cycle_number", [fl 1; fl 2])]) ∧
  setitem (mkFrame [1]%Z [("soc", [fl 5])]) "cycle_number"
    (mkSeries [0; 1]%Z [fl 1; fl 2])
  = inr (mkFrame [1]%Z [("soc", [fl 5]); ("cycle_number", [fl 2])]).
Proof. split; vm_compute; reflexivity. Qed.

End Frames.

(** ** Appending the estimates to a cell *)

Lemma append_estimates_raw (cell cell' : BatteryDataset) (output : DataFrame) :
  append_estimates cell output = inr cell' →
  join (raw_data cell) (rename est_ output) = inr (raw_data cell').
Proof.
  unfold append_estimates. intros Ha.
  apply bind_inr in Ha as (raw & Hraw & Ha). inv_result. by subst.
Qed.

Lemma assoc_is_Some (n : string) (cols : list (string * list value)) :
  n ∈ cols.*1 → is_Some (assoc n cols).
Proof.
  intros Hn. destruct (assoc n cols) eqn:Ha; [done|].
  by apply assoc_None in Ha.
Qed.

(** An index without duplicate labels has the label [l] at one position
    only. *)
Lemma positions_lookup (l : Z) (idx : list Z) (j k : nat) :
  NoDup idx → idx !! j = Some l → positions l idx k = [(k + j)%nat].
Proof.
  intros Hnd. revert j k. induction Hnd as [|a idx Ha Hnd IH]; intros j k Hj; [done|].
  simpl. destruct j as [|j]; simpl in Hj.
  - injection Hj as ->. rewrite decide_True by done.
    rewrite positions_absent by done. simpl. f_equal. lia.
  - rewrite decide_False.
    2:{ intros ->. apply Ha. by eapply list_elem_of_lookup_2. }
    simpl. rewrite (IH j (S k) Hj). f_equal. lia.
Qed.

(** C5: after a successful run the estimates are appended to the raw data
    of the cell as derived columns.  The raw data keeps its index and its
    columns, unchanged, and gains for every joint-state dimension [x] the
    value column named ["est_" ++ x] and the standard-deviation column
    named ["est_" ++ x ++ "_std"], in this order.  The new columns are
    joined row for row: the row of the raw data labelled [l] holds the
    estimate of the row of the run output with the same label, and NaN
    when the output has no such row; for an output on the index of the raw
    data the appended column is the output column itself. *)
Theorem estimates_appended_as_columns
    (cell cell' : BatteryDataset) (output : DataFrame) (dims : list string) :
  wf_frame (raw_data cell) →
  NoDup (index output) →
  column_names output = dims ++ ((λ x, x +:+ "_std") <$> dims) →
  append_estimates cell output = inr cell' →
  index (raw_data cell') = index (raw_data cell) ∧
  column_names (raw_data cell') =
    column_names (raw_data cell) ++
    ((λ x, "est_" +:+ x) <$> dims) ++ ((λ x, "est_" +:+ x +:+ "_std") <$> dims) ∧
  (∀ n vs, assoc n (columns (raw_data cell)) = Some vs →
           assoc n (columns (raw_data cell')) = Some vs) ∧
  (∀ x, x ∈ dims → ∀ n, n = x ∨ n = x +:+ "_std" →
     ∃ vs vs',
       assoc n (columns output) = Some vs ∧
       assoc ("est_" +:+ n) (columns (raw_data cell')) = Some vs' ∧
       length vs' = length (index (raw_data cell)) ∧
       (∀ i j l, index (raw_data cell) !! i = Some l →
                 index output !! j = Some l →
                 vs' !! i = Some (default NaN (vs !! j))) ∧
       (∀ i l, index (raw_data cell) !! i = Some l → l ∉ index output →
               vs' !! i = Some NaN) ∧
       (index output = index (raw_data cell) →
        length vs = length (index output) → vs' = vs)).
Proof.
  intros Hwf Hnd Hnames Ha. apply append_estimates_raw in Ha.
  destruct (join_spec (raw_data cell) (rename est_ output) _ Hwf Hnd Ha)
    as (Hidx & Hcols & Hleft & Hright).
  split; [done|]. split.
  { rewrite Hcols. f_equal. unfold column_names, rename. simpl.
    rewrite <- list_fmap_compose.
    change (columns output).*1 with (column_names output) in *.
    rewrite (list_fmap_ext (fst ∘ prod_map est_ id) (est_ ∘ fst) (columns output))
      by (by intros []).
    rewrite list_fmap_compose.
    change (columns output).*1 with (column_names output).
    rewrite Hnames, fmap_app, <- list_fmap_compose. done. }
  split; [done|].
  intros x Hx n Hn.
  assert (Hin : n ∈ column_names output).
  { rewrite Hnames. apply elem_of_app. destruct Hn as [->| ->]; [by left|].
    right. apply list_elem_of_fmap. eauto. }
  destruct (assoc_is_Some _ _ Hin) as [vs Hvs].
  destruct (Hright (est_ n) vs) as (vs' & Hvs' & Hlen & Hrow).
  { unfold rename. simpl. by rewrite assoc_rename_est. }
  simpl in Hrow.
  assert (Hsame : ∀ i j l, index (raw_data cell) !! i = Some l →
                    index output !! j = Some l →
                    vs' !! i = Some (default NaN (vs !! j))).
  { intros i j l Hi Hj. rewrite (Hrow i l Hi).
    by rewrite (positions_lookup l (index output) j 0 Hnd Hj). }
  exists vs, vs'. split; [done|]. split; [exact Hvs'|]. split; [done|].
  split; [exact Hsame|]. split.
  - intros i l Hi Hl. rewrite (Hrow i l Hi).
    by rewrite positions_absent.
  - intros Hio Hlv. apply list_eq. intros i.
    destruct (index (raw_data cell) !! i) as [l|] eqn:Hi.
    + rewrite (Hsame i i l Hi) by (by rewrite Hio).
      assert (Hlt : (i < length vs)%nat).
      { rewrite Hlv, Hio. by eapply lookup_lt_Some. }
      apply lookup_lt_is_Some in Hlt as [v Hv]. by rewrite Hv.
    + apply lookup_ge_None in Hi.
      rewrite (proj2 (lookup_ge_None vs' i)) by lia.
      symmetry. apply lookup_ge_None. rewrite Hlv, Hio. lia.
Qed.

Lemma estimates_appended_as_columns_witness :
  ∃ cell',
    append_estimates cell_c output_c = inr cell' ∧
    index (raw_data cell') = [0; 1; 2; 3]%Z ∧
    column_names (raw_data cell') =
      ["test_time"; "current"; "voltage"; "cycle_number";
       "est_soc"; "est_soc_std"] ∧
    assoc "voltage" (columns (raw_data cell')) = Some [fl 4; fl 4; fl 3; fl 3] ∧
    assoc "est_soc" (columns (raw_data cell')) =
      Some [Some 0.9; Some 0.7; Some 0.5; Some 0.3]%Q ∧
    assoc "est_soc_std" (columns (raw_data cell')) =
      Some [Some 0.1; Some 0.1; Some 0.1; Some 0.1]%Q.
Proof.
  destruct (append_estimates cell_c output_c) as [e|cell'] eqn:Ha;
    [vm_compute in Ha; discriminate|].
  exists cell'. split; [reflexivity|].
  destruct (estimates_appended_as_columns cell_c cell' output_c ["soc"])
    as (Hidx & Hnames & Hold & Hnew).
  - repeat constructor.
  - apply (bool_decide_unpack (NoDup (index output_c))). vm_compute. exact I.
  - reflexivity.
  - exact Ha.
  - split; [exact Hidx|]. split; [exact Hnames|].
    split; [apply Hold; reflexivity|].
    split.
    + destruct (Hnew "soc" ltac:(left) "soc" ltac:(by left))
        as (vs & vs' & Hvs & Hvs' & _ & _ & _ & Heq).
      injection Hvs as <-. rewrite <- (Heq eq_refl eq_refl). exact Hvs'.
    + destruct (Hnew "soc" ltac:(left) "soc_std" ltac:(by right))
        as (vs & vs' & Hvs & Hvs' & _ & _ & _ & Heq).
      injection Hvs as <-. rewrite <- (Heq eq_refl eq_refl). exact Hvs'.
Defined.

(** A run of the toy filter on [cell_a] and the file the loop writes for
    it: the raw data with the estimate columns of the five joint-state
    dimensions appended, one estimate per sample. *)
Example estimates_appended_after_run :
  ∃ cell',
    files (world_of (@batch_loop toy_moirae asoh_loc [path_a] (start batch_files)))
      !! ["estimates"; "a.hdf5"] = Some cell' ∧
    column_names (raw_data cell') =
      ["test_time"; "current"; "voltage"; "cycle_number";
       "est_soc"; "est_hyst"; "est_q_t.base_values";
       "est_r0.base_values[0]"; "est_r0.base_values[1]";
       "est_soc_std"; "est_hyst_std"; "est_q_t.base_values_std";
       "est_r0.base_values[0]_std"; "est_r0.base_values[1]_std"] ∧
    assoc "est_soc" (columns (raw_data cell')) =
      Some [Some 0.9; Some (4 # 5); Some 0.9; Some 1]%Q ∧
    assoc "voltage" (columns (raw_data cell')) = Some [fl 4; fl 4; fl 3; fl 3].
Proof.
  eexists. split; [vm_compute; reflexivity|].
  repeat split; vm_compute; reflexivity.
Qed.

(** C6, the behaviour of the code on a cell whose raw data holds the
    cycles 1 and 2 only: the per-cycle means are joined to the cycle
    statistics by their position among the cycles present, not by cycle
    number.  The row of cycle 0, a cycle without samples, receives the mean
    of cycle 1; the row of cycle 1 receives the mean of cycle 2; the row of
    cycle 2 receives nothing. *)
Theorem cycle_means_joined_by_position :
  ∃ cell' cyc est,
    append_estimates cell_c output_c = inr cell' ∧
    assoc "cycle_number" (columns (raw_data cell_c)) = Some cyc ∧
    assoc "soc" (columns output_c) = Some est ∧
    group_values cyc est 1 = [Some 0.9; Some 0.7]%Q ∧
    nanmean (group_values cyc est 1) = Some (4 # 5)%Q ∧
    group_values cyc est 2 = [Some 0.5; Some 0.3]%Q ∧
    nanmean (group_values cyc est 2) = Some (2 # 5)%Q ∧
    group_values cyc est 0 = [] ∧
    at_label (cycle_stats cell') 0 "cycle_number" = Some (Some 0%Q) ∧
    at_label (cycle_stats cell') 0 "est_soc" = Some (Some (4 # 5)%Q) ∧
    at_label (cycle_stats cell') 1 "cycle_number" = Some (Some 1%Q) ∧
    at_label (cycle_stats cell') 1 "est_soc" = Some (Some (2 # 5)%Q) ∧
    at_label (cycle_stats cell') 2 "cycle_number" = Some (Some 2%Q) ∧
    at_label (cycle_stats cell') 2 "est_soc" = Some NaN.
Proof.
  destruct (append_estimates cell_c output_c) as [e|cell'] eqn:Ha;
    [vm_compute in Ha; discriminate|].
  vm_compute in Ha. injection Ha as <-.
  do 3 eexists. split; [reflexivity|].
  split; [reflexivity|]. split; [reflexivity|].
  repeat split; vm_compute; reflexivity.
Qed.

(** On a cell whose cycles are numbered 0, 1, ... without gaps the same
    code puts every mean into the row of its cycle. *)
Example cycle_means_contiguous :
  ∃ cell',
    append_estimates cell_a output_c = inr cell' ∧
    at_label (cycle_stats cell') 0 "est_soc" = Some (Some (4 # 5)%Q) ∧
    at_label (cycle_stats cell') 1 "est_soc" = Some (Some (2 # 5)%Q).
Proof.
  destruct (append_estimates cell_a output_c) as [e|cell'] eqn:Ha;
    [vm_compute in Ha; discriminate|].
  vm_compute in Ha. injection Ha as <-.
  eexists. split; [reflexivity|]. split; vm_compute; reflexivity.
Qed.

(** ** The heap: copies and write-backs *)

Section Heap.
Context `{Moirae}.

Lemma alloc_spec (h h' : heap) (o : pyobj) (l : loc) :
  alloc h o = (h', l) → (l ∉ dom h) ∧ h' = <[l := o]> h.
Proof.
  unfold alloc. intros Heq. injection Heq as <- <-.
  split; [apply is_fresh | done].
Qed.

Lemma read_asoh_lookup (h : heap) (asoh : loc) (a : ASOHValue) :
  read_asoh h asoh = inr a ↔
  ∃ ql rl ol rf,
    h !! asoh = Some (OECMASOH ql rl ol) ∧
    h !! ql = Some (OHealth (v_q_t a)) ∧
    h !! rl = Some (OHealth (v_r0 a)) ∧
    h !! ol = Some (OOpenCircuitVoltage rf) ∧
    h !! rf = Some (ORefOCV (v_ocv_ref a)).
Proof.
  split.
  - unfold read_asoh. intros Hr. inv_result. inv_heap. simpl.
    eauto 10.
  - intros (ql & rl & ol & rf & Ha & Hq & Hr & Ho & Hf).
    unfold read_asoh, attr_q_t, attr_r0, attr_ocv, attr_ocv_ref,
      get_health, get_ref_ocv.
    rewrite Ha. simpl. rewrite Hq. simpl. rewrite Hr. simpl.
    rewrite Ho. simpl. rewrite Hf. simpl. by destruct a.
Qed.

Lemma asoh_locs_lookup (h : heap) (asoh : loc) (locs : list loc) :
  asoh_locs h asoh = inr locs ↔
  ∃ ql rl ol rf,
    h !! asoh = Some (OECMASOH ql rl ol) ∧
    h !! ol = Some (OOpenCircuitVoltage rf) ∧
    locs = [asoh; ql; rl; ol; rf].
Proof.
  split.
  - unfold asoh_locs. intros Hr. inv_result. inv_heap. subst. eauto 10.
  - intros (ql & rl & ol & rf & Ha & Ho & ->).
    unfold asoh_locs, attr_q_t, attr_r0, attr_ocv, attr_ocv_ref.
    rewrite Ha. simpl. by rewrite Ho.
Qed.

(** Reading an ASOH depends only on the objects that exist. *)
Lemma read_asoh_frame (h h' : heap) (asoh : loc) (a : ASOHValue) :
  (∀ l, l ∈ dom h → h' !! l = h !! l) →
  read_asoh h asoh = inr a → read_asoh h' asoh = inr a.
Proof.
  intros Hfr (ql & rl & ol & rf & Ha & Hq & Hr & Ho & Hf)%read_asoh_lookup.
  apply read_asoh_lookup. exists ql, rl, ol, rf.
  rewrite !Hfr by (apply elem_of_dom; eauto). done.
Qed.

Lemma asoh_locs_frame (h h' : heap) (asoh : loc) (locs : list loc) :
  (∀ l, l ∈ dom h → h' !! l = h !! l) →
  asoh_locs h asoh = inr locs → asoh_locs h' asoh = inr locs.
Proof.
  intros Hfr (ql & rl & ol & rf & Ha & Ho & ->)%asoh_locs_lookup.
  apply asoh_locs_lookup. exists ql, rl, ol, rf.
  rewrite !Hfr by (apply elem_of_dom; eauto). done.
Qed.

(** The deep copy: five new objects with the contents of the original,
    nothing else changes. *)
Lemma model_copy_deep_spec (h h' : heap) (asoh copy : loc) :
  model_copy_deep h asoh = inr (h', copy) →
  ∃ a ql rl ol rf,
    read_asoh h asoh = inr a ∧
    Forall (λ l, l ∉ dom h) [copy; ql; rl; ol; rf] ∧
    NoDup [copy; ql; rl; ol; rf] ∧
    h' = <[copy := OECMASOH ql rl ol]>
           (<[ol := OOpenCircuitVoltage rf]>
              (<[rf := ORefOCV (v_ocv_ref a)]>
                 (<[rl := OHealth (v_r0 a)]>
                    (<[ql := OHealth (v_q_t a)]> h)))).
Proof.
  unfold model_copy_deep. intros Hc.
  apply bind_inr in Hc as (a & Ha & Hc).
  destruct (alloc h _) as [h1 ql] eqn:H1.
  destruct (alloc h1 _) as [h2 rl] eqn:H2.
  destruct (alloc h2 _) as [h3 rf] eqn:H3.
  destruct (alloc h3 _) as [h4 ol] eqn:H4.
  destruct (alloc h4 _) as [h5 c5] eqn:H5.
  injection Hc as <- <-.
  apply alloc_spec in H1 as [F1 ->], H2 as [F2 ->], H3 as [F3 ->],
    H4 as [F4 ->], H5 as [F5 ->].
  exists a, ql, rl, ol, rf. split; [done|].
  rewrite !dom_insert_L in *.
  split; [repeat constructor; set_solver|].
  split; [|done].
  repeat (apply NoDup_cons; split; [set_solver|]). apply NoDup_nil_2.
Qed.

Lemma model_copy_deep_frame (h h' : heap) (asoh copy : loc) :
  model_copy_deep h asoh = inr (h', copy) →
  ∀ l, l ∈ dom h → h' !! l = h !! l.
Proof.
  intros (a & ql & rl & ol & rf & _ & Hfresh & _ & ->)%model_copy_deep_spec l Hl.
  rewrite !Forall_cons in Hfresh.
  rewrite !lookup_insert_ne; [done|..]; set_solver.
Qed.

Lemma model_copy_deep_read (h h' : heap) (asoh copy : loc) (a : ASOHValue) :
  model_copy_deep h asoh = inr (h', copy) →
  read_asoh h asoh = inr a →
  read_asoh h' copy = inr a ∧
  ∃ ql rl ol rf,
    asoh_locs h' copy = inr [copy; ql; rl; ol; rf] ∧
    Forall (λ l, l ∉ dom h) [copy; ql; rl; ol; rf] ∧
    attr_q_t h' copy = inr ql ∧ attr_r0 h' copy = inr rl.
Proof.
  intros (a' & ql & rl & ol & rf & Ha' & Hfresh & Hnd & ->)%model_copy_deep_spec Ha.
  assert (a' = a) as -> by congruence.
  assert (copy ≠ ql ∧ copy ≠ rl ∧ copy ≠ ol ∧ copy ≠ rf ∧ ql ≠ rl ∧
          ql ≠ ol ∧ ql ≠ rf ∧ rl ≠ ol ∧ rl ≠ rf ∧ ol ≠ rf)
    as (? & ? & ? & ? & ? & ? & ? & ? & ? & ?).
  { rewrite !NoDup_cons, !not_elem_of_cons in Hnd. naive_solver. }
  assert (Hroot : (<[copy := OECMASOH ql rl ol]>
           (<[ol := OOpenCircuitVoltage rf]>
              (<[rf := ORefOCV (v_ocv_ref a)]>
                 (<[rl := OHealth (v_r0 a)]>
                    (<[ql := OHealth (v_q_t a)]> h))))) !! copy
           = Some (OECMASOH ql rl ol)) by apply lookup_insert_eq.
  split.
  - apply read_asoh_lookup. exists ql, rl, ol, rf.
    split; [done|]. repeat split; by simplify_map_eq.
  - exists ql, rl, ol, rf. split.
    { apply asoh_locs_lookup. exists ql, rl, ol, rf.
      split; [done|]. split; [|done]. by simplify_map_eq. }
    split; [done|]. unfold attr_q_t, attr_r0. by rewrite Hroot.
Qed.

(** *** The write-back and the run touch the working objects only *)

Lemma working_locs_root (h h' : heap) (est : JointEstimator) :
  h' !! initial_asoh_of est = h !! initial_asoh_of est →
  working_locs h' est = working_locs h est.
Proof. intros Hr. unfold working_locs, attr_q_t, attr_r0. by rewrite Hr. Qed.

Lemma write_back_spec (est : JointEstimator) (mean : list Q) (h h' : heap) :
  write_back est mean h = inr h' →
  dom h' = dom h ∧
  h' !! initial_asoh_of est = h !! initial_asoh_of est ∧
  ∀ l, l ∉ working_locs h est → h' !! l = h !! l.
Proof.
  unfold write_back. intros Hw.
  apply bind_inr in Hw as (ql & Hql & Hw).
  apply bind_inr in Hw as (q & Hq & Hw).
  apply bind_inr in Hw as (rl & Hrl & Hw).
  apply bind_inr in Hw as (r & Hr & Hw).
  apply bind_inr in Hw as (tr & Htr & Hw).
  destruct mean as [|s [|y params]]; [done..|].
  case_decide; [|done]. injection Hw as <-.
  unfold working_locs. rewrite Hql, Hrl.
  unfold attr_q_t, attr_r0, get_health, get_transient in *.
  destruct (h !! initial_asoh_of est) as [[]|] eqn:Ha; simplify_eq.
  destruct (h !! ql) as [[]|] eqn:Hlq; simplify_eq.
  destruct (h !! rl) as [[]|] eqn:Hlr; simplify_eq.
  destruct (h !! initial_transients est) as [[]|] eqn:Hlt; simplify_eq.
  split.
  { rewrite !dom_insert_L.
    assert (ql ∈ dom h) by (apply elem_of_dom; eauto).
    assert (rl ∈ dom h) by (apply elem_of_dom; eauto).
    assert (initial_transients est ∈ dom h) by (apply elem_of_dom; eauto).
    set_solver. }
  split.
  { rewrite !lookup_insert_ne by congruence. done. }
  intros l Hl. rewrite !not_elem_of_cons in Hl. destruct Hl as (? & ? & ? & _).
  by rewrite !lookup_insert_ne.
Qed.

Lemma online_loop_spec (est : JointEstimator) (stream : list Sample) :
  ∀ (core : ukf) (h : heap) (done_ : list Posterior) h' r,
    online_loop est core stream h done_ = (h', r) →
    dom h' = dom h ∧
    h' !! initial_asoh_of est = h !! initial_asoh_of est ∧
    ∀ l, l ∉ working_locs h est → h' !! l = h !! l.
Proof.
  induction stream as [|s stream IH]; intros core h done_ h' r Hl; simpl in Hl.
  - by simplify_eq.
  - destruct (ukf_step core s) as [e|[core' p]]; [by simplify_eq|].
    destruct (write_back est (post_mean p) h) as [e|h1] eqn:Hw; [by simplify_eq|].
    apply write_back_spec in Hw as (Hd1 & Hr1 & Hf1).
    apply IH in Hl as (Hd2 & Hr2 & Hf2).
    split; [congruence|]. split; [congruence|].
    intros l Hn. rewrite Hf2, Hf1; [done..|].
    by rewrite (working_locs_root h h1).
Qed.

Lemma run_online_estimate_spec (dataset : BatteryDataset) (est : JointEstimator)
    (h h' : heap) (r : result DataFrame) :
  run_online_estimate dataset est h = (h', r) →
  dom h' = dom h ∧
  h' !! initial_asoh_of est = h !! initial_asoh_of est ∧
  ∀ l, l ∉ working_locs h est → h' !! l = h !! l.
Proof.
  unfold run_online_estimate. intros Hrun.
  destruct (read_asoh h (initial_asoh_of est)) as [e|a];
    [by simplify_eq|].
  destruct (get_transient h (initial_transients est)) as [e|tr];
    [by simplify_eq|].
  destruct (measurement_stream dataset) as [e|stream]; [by simplify_eq|].
  destruct (online_loop est _ stream h []) as [h1 r1] eqn:Hl.
  injection Hrun as <- _. by eapply online_loop_spec.
Qed.

(** *** The objects made by [create_estimator] *)

Lemma create_estimator_heap (initial_asoh : loc) (dataset : BatteryDataset)
    (h h' : heap) (est : JointEstimator) :
  create_estimator initial_asoh dataset h = inr (h', est) →
  ∃ a ql rl ol rf,
    read_asoh h initial_asoh = inr a ∧
    read_asoh h' (initial_asoh_of est) = inr a ∧
    asoh_locs h' (initial_asoh_of est) =
      inr [initial_asoh_of est; ql; rl; ol; rf] ∧
    h' !! initial_transients est =
      Some (OTransient (mkTransient 1 (hyst (from_asoh a)))) ∧
    Forall (λ l, l ∉ dom h)
      [initial_transients est; initial_asoh_of est; ql; rl; ol; rf] ∧
    initial_transients est ≠ initial_asoh_of est ∧
    working_locs h' est = [initial_transients est; ql; rl] ∧
    dom h ⊆ dom h' ∧
    ∀ l, l ∈ dom h → h' !! l = h !! l.
Proof.
  intros Hc.
  apply create_estimator_inv in Hc
    as (ql0 & q_t & q & rl0 & r0 & a & t0 & i0 &
        _ & _ & _ & _ & _ & Ha & _ & _ & Hc).
  cbv zeta in Hc. destruct Hc as [Hcopy Hest].
  set (tl := fresh (dom h)) in *.
  set (h2 := <[tl := OTransient (mkTransient 1 (hyst (from_asoh a)))]> h) in *.
  assert (Htl : tl ∉ dom h) by apply is_fresh.
  assert (Hfr2 : ∀ l, l ∈ dom h → h2 !! l = h !! l).
  { intros l Hl. unfold h2. rewrite lookup_insert_ne; [done|].
    intros ->. done. }
  assert (Ha2 : read_asoh h2 initial_asoh = inr a) by by eapply read_asoh_frame.
  destruct (model_copy_deep_read _ _ _ _ _ Hcopy Ha2)
    as (Hread & ql & rl & ol & rf & Hlocs & Hfresh & Hq & Hr).
  pose proof (model_copy_deep_frame _ _ _ _ Hcopy) as Hfr3.
  assert (Hdom2 : dom h2 = {[tl]} ∪ dom h) by apply dom_insert_L.
  assert (Het : initial_transients est = tl) by (by rewrite Hest).
  rewrite Het.
  exists a, ql, rl, ol, rf.
  split; [done|]. split; [done|]. split; [done|].
  assert (Htl2 : tl ∈ dom h2) by set_solver.
  rewrite !Forall_cons in Hfresh.
  destruct Hfresh as (F1 & F2 & F3 & F4 & F5 & _).
  split.
  { rewrite (Hfr3 tl Htl2). apply lookup_insert_eq. }
  split; [repeat constructor; set_solver|].
  split; [set_solver|].
  split.
  { unfold working_locs. by rewrite Hq, Hr, Het. }
  split.
  { intros l Hl. assert (Hl2 : l ∈ dom h2) by set_solver.
    apply elem_of_dom. rewrite (Hfr3 l Hl2). by apply elem_of_dom. }
  intros l Hl. rewrite Hfr3 by set_solver. by apply Hfr2.
Qed.

End Heap.

(** ** The batch loop *)

Section Batch.
Context `{Moirae}.
Variable initial_asoh : loc.

(** The ways through the loop body. *)
Lemma loop_body_cases (w : world) (path : Path) :
  let out_path := joinpath estimate_dir (name path) in
  (is_Some (files w !! out_path) ∧ loop_body initial_asoh w path = Continue w) ∨
  (files w !! out_path = None ∧ files w !! path = None ∧
   loop_body initial_asoh w path = Raise FileNotFoundError w) ∨
  (∃ cell e,
     files w !! out_path = None ∧ files w !! path = Some cell ∧
     create_estimator initial_asoh cell (objects w) = inl e ∧
     loop_body initial_asoh w path = Raise e w) ∨
  (∃ cell h1 est h2 r,
     files w !! out_path = None ∧ files w !! path = Some cell ∧
     create_estimator initial_asoh cell (objects w) = inr (h1, est) ∧
     run_online_estimate cell est h1 = (h2, r) ∧
     let ran := (path, est) :: estimations w in
     match r with
     | inl LinAlgError =>
         loop_body initial_asoh w path =
         Continue (mkWorld h2 (files w) (stdout w ++ [failure_message path]) ran)
     | inl e =>
         loop_body initial_asoh w path =
         Raise e (mkWorld h2 (files w) (stdout w) ran)
     | inr output =>
         match append_estimates cell output with
         | inl e =>
             loop_body initial_asoh w path =
             Raise e (mkWorld h2 (files w) (stdout w) ran)
         | inr cell' =>
             loop_body initial_asoh w path =
             Continue (mkWorld h2 (<[out_path := cell']> (files w)) (stdout w) ran)
         end
     end).
Proof.
  intros out_path. unfold loop_body. fold out_path.
  destruct (decide (is_Some (files w !! out_path))) as [Hex|Hex]; [by left|].
  right. apply eq_None_not_Some in Hex.
  destruct (files w !! path) as [cell|] eqn:Hcell; [|by left].
  right.
  destruct (create_estimator initial_asoh cell (objects w)) as [e|[h1 est]] eqn:Hc.
  { left. by exists cell, e. }
  right. destruct (run_online_estimate cell est h1) as [h2 r] eqn:Hrun.
  exists cell, h1, est, h2, r. repeat (split; [done|]).
  destruct r as [[]|output]; try done.
  by destruct (append_estimates cell output).
Qed.

(** One pass never changes a file that exists. *)
Lemma loop_body_keeps_files (w : world) (path p : Path) :
  is_Some (files w !! p) →
  files (world_of (loop_body initial_asoh w path)) !! p = files w !! p.
Proof.
  intros Hp.
  destruct (loop_body_cases w path)
    as [[_ ->]|[(_ & _ & ->)|[(cell & e & _ & _ & _ & ->)|
        (cell & h1 & est & h2 & r & Hout & _ & _ & _ & Hr)]]]; [done..|].
  cbv zeta in Hr.
  destruct r as [[]|output]; try (by rewrite Hr).
  destruct (append_estimates cell output) as [e|cell']; rewrite Hr; [done|].
  simpl. apply lookup_insert_ne. intros <-. rewrite Hout in Hp.
  by apply is_Some_None in Hp.
Qed.

Lemma batch_loop_keeps_files (all_cells : list Path) (w : world) (p : Path) :
  is_Some (files w !! p) →
  files (world_of (batch_loop initial_asoh all_cells w)) !! p = files w !! p.
Proof.
  revert w. induction all_cells as [|path rest IH]; intros w Hp; [done|].
  simpl. pose proof (loop_body_keeps_files w path p Hp) as Hb.
  destruct (loop_body initial_asoh w path) as [w'|e w']; simpl in *; [|done].
  rewrite IH; [done|]. by rewrite Hb.
Qed.

Lemma batch_loop_all_present (all_cells : list Path) (w : world) :
  (∀ path, path ∈ all_cells →
     is_Some (files w !! joinpath estimate_dir (name path))) →
  batch_loop initial_asoh all_cells w = Continue w.
Proof.
  induction all_cells as [|path rest IH]; intros Hall; [done|].
  simpl. unfold loop_body.
  rewrite decide_True by (apply Hall; left).
  apply IH. intros q Hq. apply Hall. by right.
Qed.

(** C10: the loop skips, without estimating and without any other
    effect, every cell whose output file exists when the loop reaches it;
    no pass over the cells changes a file that exists, so running the
    whole loop again after a pass changes no output file; and after a
    pass that left an output for every cell the second pass does
    nothing at all. *)
Theorem batch_loop_idempotent_on_outputs (all_cells : list Path) (w : world) :
  (∀ path, is_Some (files w !! joinpath estimate_dir (name path)) →
     loop_body initial_asoh w path = Continue w) ∧
  (∀ p, is_Some (files w !! p) →
     files (world_of (batch_loop initial_asoh all_cells w)) !! p = files w !! p) ∧
  (let w1 := world_of (batch_loop initial_asoh all_cells w) in
   let w2 := world_of (batch_loop initial_asoh all_cells w1) in
   (∀ p, is_Some (files w1 !! p) → files w2 !! p = files w1 !! p) ∧
   ((∀ path, path ∈ all_cells →
       is_Some (files w1 !! joinpath estimate_dir (name path))) →
    batch_loop initial_asoh all_cells w1 = Continue w1)).
Proof.
  split.
  { intros path Hex. unfold loop_body. by rewrite decide_True. }
  split.
  { intros p Hp. by apply batch_loop_keeps_files. }
  cbv zeta. split.
  - intros p Hp. by apply batch_loop_keeps_files.
  - apply batch_loop_all_present.
Qed.

(** C8: the output file of a cell is written last.  A pass changes no
    file other than the output of its cell; an output that appears in a
    pass is the complete result (the estimation ran to the end, the
    estimates were joined and the per-cycle means added); and when
    [run_online_estimate] raises a linear-algebra error no file is
    written, the cell is left without output and the loop goes on with
    the next cell. *)
Theorem output_written_last (w : world) (path : Path) :
  let out_path := joinpath estimate_dir (name path) in
  let w' := world_of (loop_body initial_asoh w path) in
  (∀ p, p ≠ out_path → files w' !! p = files w !! p) ∧
  (∀ ds, files w !! out_path = None → files w' !! out_path = Some ds →
     ∃ cell h1 est h2 output,
       files w !! path = Some cell ∧
       create_estimator initial_asoh cell (objects w) = inr (h1, est) ∧
       run_online_estimate cell est h1 = (h2, inr output) ∧
       append_estimates cell output = inr ds ∧
       loop_body initial_asoh w path = Continue w') ∧
  (∀ cell h1 est h2,
     files w !! out_path = None → files w !! path = Some cell →
     create_estimator initial_asoh cell (objects w) = inr (h1, est) →
     run_online_estimate cell est h1 = (h2, inl LinAlgError) →
     files w' = files w ∧ files w' !! out_path = None ∧
     loop_body initial_asoh w path = Continue w' ∧
     ∀ rest, batch_loop initial_asoh (path :: rest) w =
             batch_loop initial_asoh rest w').
Proof.
  intros out_path w'. subst w'.
  destruct (loop_body_cases w path)
    as [[Hex Hb]|[(Hout & Hno & Hb)|[(cell & e & Hout & Hcell & Hc & Hb)|
        (cell & h1 & est & h2 & r & Hout & Hcell & Hc & Hrun & Hr)]]];
    fold out_path in Hex || fold out_path in Hout.
  - rewrite Hb. simpl. destruct Hex as [d Hex].
    split; [done|]. split; intros; congruence.
  - rewrite Hb. simpl. split; [done|]. split; [congruence|]. congruence.
  - rewrite Hb. simpl. split; [done|]. split; [congruence|]. congruence.
  - cbv zeta in Hr. fold out_path in Hr.
    destruct r as [e|output].
    + assert (Hw : files (world_of (loop_body initial_asoh w path)) = files w)
        by (destruct e; by rewrite Hr).
      rewrite Hw. split; [done|]. split; [congruence|].
      intros cell0 h0 est0 h3 _ Hcell0 Hc0 Hrun0.
      assert (cell0 = cell) as -> by congruence.
      assert (h0 = h1 ∧ est0 = est) as [-> ->] by (split; congruence).
      assert (e = LinAlgError) as -> by congruence.
      split; [done|]. split; [done|].
      split; [by rewrite Hr|]. intros rest. simpl. by rewrite Hr.
    + destruct (append_estimates cell output) as [e|cell'] eqn:Happ;
        rewrite Hr; simpl.
      * split; [done|]. split; [congruence|].
        intros cell0 h0 est0 h3 _ Hcell0 Hc0 Hrun0.
        assert (cell0 = cell) as -> by congruence.
        assert (h0 = h1 ∧ est0 = est) as [-> ->] by (split; congruence).
        congruence.
      * split; [intros p Hp; by apply lookup_insert_ne|]. split.
        -- intros ds _ Hds. rewrite lookup_insert_eq in Hds. simplify_eq.
           by exists cell, h1, est, h2, output.
        -- intros cell0 h0 est0 h3 _ Hcell0 Hc0 Hrun0.
           assert (cell0 = cell) as -> by congruence.
           assert (h0 = h1 ∧ est0 = est) as [-> ->] by (split; congruence).
           congruence.
Qed.

(** C1 as the code has it: a linear-algebra error raised during the run
    of a cell is caught by the batch loop and ends the run of that cell as
    a whole.  No estimate of the cell is kept and no file is written; the
    only report is one printed line that names the path of the cell; the
    run is entered in the list of the runs made; and the loop goes on with
    the next cell. *)
Theorem linalg_error_abandons_cell (w : world) (path : Path) (rest : list Path)
    (cell : BatteryDataset) (h1 h2 : heap) (est : JointEstimator) :
  files w !! joinpath estimate_dir (name path) = None →
  files w !! path = Some cell →
  create_estimator initial_asoh cell (objects w) = inr (h1, est) →
  run_online_estimate cell est h1 = (h2, inl LinAlgError) →
  ∃ w',
    loop_body initial_asoh w path = Continue w' ∧
    files w' = files w ∧
    stdout w' = stdout w ++ [failure_message path] ∧
    estimations w' = (path, est) :: estimations w ∧
    batch_loop initial_asoh (path :: rest) w = batch_loop initial_asoh rest w'.
Proof.
  intros Hout Hcell Hc Hrun.
  destruct (loop_body_cases w path)
    as [[Hex _]|[(_ & Hno & _)|[(cell0 & e & _ & Hcell0 & Hc0 & _)|
        (cell0 & h0 & est0 & h3 & r & _ & Hcell0 & Hc0 & Hrun0 & Hr)]]].
  - rewrite Hout in Hex. by apply is_Some_None in Hex.
  - congruence.
  - congruence.
  - assert (cell0 = cell) as -> by congruence.
    assert (h0 = h1 ∧ est0 = est) as [-> ->] by (split; congruence).
    assert (r = inl LinAlgError) as -> by congruence.
    cbv zeta in Hr. eexists. split; [exact Hr|].
    repeat (split; [done|]). simpl. by rewrite Hr.
Qed.

(** C2: [create_estimator] hands a deep copy of [initial_asoh] to the
    factory (new objects with the contents of the original), and neither
    the construction nor the run of the estimator, which writes its
    corrections into the working copy, changes any object that existed
    before: the caller's [initial_asoh] reads as before. *)
Theorem initial_asoh_left_unchanged (dataset : BatteryDataset)
    (h h' : heap) (est : JointEstimator) :
  create_estimator initial_asoh dataset h = inr (h', est) →
  ∃ a copy_locs,
    read_asoh h initial_asoh = inr a ∧
    asoh_locs h' (initial_asoh_of est) = inr copy_locs ∧
    Forall (λ l, l ∉ dom h) copy_locs ∧
    read_asoh h' (initial_asoh_of est) = inr a ∧
    (∀ l, l ∈ dom h → h' !! l = h !! l) ∧
    read_asoh h' initial_asoh = inr a ∧
    ∀ cell h'' r,
      run_online_estimate cell est h' = (h'', r) →
      (∀ l, l ∈ dom h → h'' !! l = h !! l) ∧
      read_asoh h'' initial_asoh = inr a.
Proof.
  intros Hc.
  destruct (create_estimator_heap _ _ _ _ _ Hc)
    as (a & ql & rl & ol & rf & Ha & Hcopy & Hlocs & _ & Hfresh & _ &
        Hwork & _ & Hframe).
  rewrite !Forall_cons in Hfresh.
  destruct Hfresh as (Ft & Fc & Fq & Fr & Fo & Ff & _).
  exists a, [initial_asoh_of est; ql; rl; ol; rf].
  split; [done|]. split; [done|].
  split; [by repeat constructor|]. split; [done|]. split; [done|].
  split; [by eapply read_asoh_frame|].
  intros cell h'' r Hrun.
  apply run_online_estimate_spec in Hrun as (_ & _ & Hrun).
  assert (Hframe' : ∀ l, l ∈ dom h → h'' !! l = h !! l).
  { intros l Hl. rewrite Hrun; [by apply Hframe|].
    rewrite Hwork, !not_elem_of_cons.
    repeat split; [by intros ->..|apply not_elem_of_nil]. }
  split; [done|]. by eapply read_asoh_frame.
Qed.

Lemma loop_body_effect (w : world) (path : Path) :
  let w' := world_of (loop_body initial_asoh w path) in
  w' = w ∨
  ∃ cell h1 est h2 r,
    files w !! path = Some cell ∧
    create_estimator initial_asoh cell (objects w) = inr (h1, est) ∧
    run_online_estimate cell est h1 = (h2, r) ∧
    objects w' = h2 ∧ estimations w' = (path, est) :: estimations w.
Proof.
  cbv zeta.
  destruct (loop_body_cases w path)
    as [[_ ->]|[(_ & _ & ->)|[(cell & e & _ & _ & _ & ->)|
        (cell & h1 & est & h2 & r & _ & Hcell & Hc & Hrun & Hr)]]];
    [by left..|].
  right. exists cell, h1, est, h2, r. repeat (split; [done|]).
  cbv zeta in Hr. destruct r as [[]|output]; try (by rewrite Hr).
  destruct (append_estimates cell output); by rewrite Hr.
Qed.

Lemma loop_body_fresh (w : world) (path : Path) :
  fresh_estimators w → fresh_estimators (world_of (loop_body initial_asoh w path)).
Proof.
  intros (Nt & Na & Hdom).
  destruct (loop_body_effect w path)
    as [->|(cell & h1 & est & h2 & r & _ & Hc & Hrun & Hobj & Hest)];
    [done|].
  destruct (create_estimator_heap _ _ _ _ _ Hc)
    as (a & ql & rl & ol & rf & _ & Hread & _ & Htr & Hfresh & _ & _ & Hsub & _).
  rewrite !Forall_cons in Hfresh. destruct Hfresh as (Ft & Fc & _).
  apply run_online_estimate_spec in Hrun as (Hd2 & _ & _).
  unfold fresh_estimators. rewrite Hest, Hobj, Hd2. simpl.
  split; [|split].
  - apply NoDup_cons. split; [|done].
    intros (pe & Heq & Hin)%list_elem_of_fmap. apply Ft.
    rewrite Heq. by apply Hdom.
  - apply NoDup_cons. split; [|done].
    intros (pe & Heq & Hin)%list_elem_of_fmap. apply Fc.
    rewrite Heq. by apply Hdom.
  - intros pe [->|Hin]%elem_of_cons; simpl.
    + split; [apply elem_of_dom; eauto|].
      apply read_asoh_lookup in Hread as (? & ? & ? & ? & Hroot & _).
      apply elem_of_dom. eauto.
    + destruct (Hdom pe Hin). split; by apply Hsub.
Qed.

Lemma batch_loop_fresh (all_cells : list Path) (w : world) :
  fresh_estimators w →
  fresh_estimators (world_of (batch_loop initial_asoh all_cells w)).
Proof.
  revert w. induction all_cells as [|path rest IH]; intros w Hw; [done|].
  simpl. pose proof (loop_body_fresh w path Hw) as Hb.
  destruct (loop_body initial_asoh w path) as [w'|e w']; simpl in *; [|done].
  by apply IH.
Qed.

(** C7: the transient state is set up once per run, in
    [create_estimator], with the state of charge exactly 1, in a new
    object; a pass of the loop that runs the estimator has built it just
    before, from the heap the pass started with, and starts the run from
    the heap that [create_estimator] left; and the estimators and
    transient states of all the cells of a batch are distinct objects. *)
Theorem estimator_built_once_per_cell (all_cells : list Path) (w : world) :
  (∀ dataset h h' est,
     create_estimator initial_asoh dataset h = inr (h', est) →
     (∃ tr, get_transient h' (initial_transients est) = inr tr ∧ soc tr = 1%Q) ∧
     (initial_transients est ∉ dom h) ∧ (initial_asoh_of est ∉ dom h)) ∧
  (∀ path,
     let w' := world_of (loop_body initial_asoh w path) in
     w' = w ∨
     ∃ cell h1 est h2 r tr,
       files w !! path = Some cell ∧
       create_estimator initial_asoh cell (objects w) = inr (h1, est) ∧
       get_transient h1 (initial_transients est) = inr tr ∧ soc tr = 1%Q ∧
       run_online_estimate cell est h1 = (h2, r) ∧
       objects w' = h2 ∧ estimations w' = (path, est) :: estimations w) ∧
  (fresh_estimators w →
   fresh_estimators (world_of (batch_loop initial_asoh all_cells w))).
Proof.
  assert (Hcreate : ∀ dataset h h' est,
     create_estimator initial_asoh dataset h = inr (h', est) →
     (∃ tr, get_transient h' (initial_transients est) = inr tr ∧ soc tr = 1%Q) ∧
     (initial_transients est ∉ dom h) ∧ (initial_asoh_of est ∉ dom h)).
  { intros dataset h h' est Hc.
    destruct (create_estimator_heap _ _ _ _ _ Hc)
      as (a & ql & rl & ol & rf & _ & _ & _ & Htr & Hfresh & _).
    rewrite !Forall_cons in Hfresh. destruct Hfresh as (Ft & Fc & _).
    split; [|done]. eexists. unfold get_transient. rewrite Htr. done. }
  split; [done|]. split; [|apply batch_loop_fresh].
  intros path. cbv zeta.
  destruct (loop_body_effect w path)
    as [->|(cell & h1 & est & h2 & r & Hcell & Hc & Hrun & Hobj & Hest)];
    [by left|].
  right. destruct (Hcreate _ _ _ _ Hc) as [(tr & Htr & Hsoc) _].
  by exists cell, h1, est, h2, r, tr.
Qed.

End Batch.

(** ** The notebook on the concrete scenarios *)

Lemma initial_asoh_left_unchanged_witness :
  ∃ h' est a copy_locs,
    @create_estimator toy_moirae asoh_loc cell_a configured_heap = inr (h', est) ∧
    read_asoh configured_heap asoh_loc = inr a ∧
    asoh_locs h' (initial_asoh_of est) = inr copy_locs ∧
    Forall (λ l, l ∉ dom configured_heap) copy_locs ∧
    read_asoh h' (initial_asoh_of est) = inr a ∧
    (∀ l, l ∈ dom configured_heap → h' !! l = configured_heap !! l) ∧
    read_asoh h' asoh_loc = inr a ∧
    ∀ cell h'' r,
      @run_online_estimate toy_moirae cell est h' = (h'', r) →
      (∀ l, l ∈ dom configured_heap → h'' !! l = configured_heap !! l) ∧
      read_asoh h'' asoh_loc = inr a.
Proof.
  destruct (@create_estimator toy_moirae asoh_loc cell_a configured_heap)
    as [e|[h' est]] eqn:Hc; [vm_compute in Hc; discriminate|].
  destruct (@initial_asoh_left_unchanged toy_moirae asoh_loc cell_a
              configured_heap h' est Hc) as (a & copy_locs & Hrest).
  exists h', est, a, copy_locs. split; [reflexivity | exact Hrest].
Defined.

(** With a shallow copy the corrections of the filter would reach the
    caller's ASOH: the copy shares the health variables. *)
Example shallow_copy_shares_health_variables :
  ∃ h1 copy h2 a,
    model_copy_shallow configured_heap asoh_loc = inr (h1, copy) ∧
    copy ≠ asoh_loc ∧
    write_back
      (mkEstimator copy (mkInput NaN NaN) 7%positive [] [] [] [] [])
      [0.5; 0; 9; 0.03; 0.04]%Q
      (<[7%positive := OTransient (mkTransient 1 0)]> h1) = inr h2 ∧
    read_asoh h2 asoh_loc = inr a ∧
    base_values (v_q_t a) = [9]%Q ∧ base_values (v_r0 a) = [0.03; 0.04]%Q.
Proof.
  destruct (model_copy_shallow configured_heap asoh_loc) as [e|[h1 copy]] eqn:Hs;
    [vm_compute in Hs; discriminate|].
  vm_compute in Hs. injection Hs as <- <-.
  do 4 eexists. split; [reflexivity|]. split; [done|].
  split; [vm_compute; reflexivity|].
  split; [vm_compute; reflexivity|]. split; reflexivity.
Qed.

(** C1, the claim against the code.  The run of [cell_b] makes two steps
    (the state of charge of its working transient state has moved from 1 to
    0.8) and fails at the third.  Nothing of the run is recorded: no output
    file exists for the cell, so no step is marked unestimated, and the
    only report is the line naming the path.  The run of [cell_b'], which
    fails at its first step, leaves the same report: the numbers of
    successful and failed steps are not reported. *)
Lemma failed_step_not_recorded :
  let w := start (<[path_b := cell_b]> ∅) in
  let w' := world_of (@batch_loop toy_moirae asoh_loc [path_b] w) in
  let v := start (<[path_b := cell_b']> ∅) in
  let v' := world_of (@batch_loop toy_moirae asoh_loc [path_b] v) in
  (∃ est tr,
     estimations w' = [(path_b, est)] ∧
     get_transient (objects w') (initial_transients est) = inr tr ∧
     (soc tr == 0.8)%Q) ∧
  (∃ est tr,
     estimations v' = [(path_b, est)] ∧
     get_transient (objects v') (initial_transients est) = inr tr ∧
     (soc tr == 1)%Q) ∧
  files w' = files w ∧
  files w' !! ["estimates"; "b.hdf5"] = None ∧
  stdout w' = ["Cell synth-data/b.hdf5 failed due to linear algebra error"] ∧
  files v' !! ["estimates"; "b.hdf5"] = None ∧
  stdout v' = stdout w'.
Proof.
  cbv zeta. split.
  { do 2 eexists. split; [vm_compute; reflexivity|].
    split; vm_compute; reflexivity. }
  split.
  { do 2 eexists. split; [vm_compute; reflexivity|].
    split; vm_compute; reflexivity. }
  repeat split; vm_compute; reflexivity.
Qed.

Lemma linalg_error_abandons_cell_witness :
  let w := start (<[path_b := cell_b]> ∅) in
  ∃ h1 h2 est w',
    files w !! joinpath estimate_dir (name path_b) = None ∧
    files w !! path_b = Some cell_b ∧
    @create_estimator toy_moirae asoh_loc cell_b (objects w) = inr (h1, est) ∧
    @run_online_estimate toy_moirae cell_b est h1 = (h2, inl LinAlgError) ∧
    @loop_body toy_moirae asoh_loc w path_b = Continue w' ∧
    files w' = files w ∧
    stdout w' = stdout w ++ [failure_message path_b] ∧
    estimations w' = (path_b, est) :: estimations w ∧
    @batch_loop toy_moirae asoh_loc [path_b; path_a] w =
    @batch_loop toy_moirae asoh_loc [path_a] w'.
Proof.
  intros w.
  destruct (@create_estimator toy_moirae asoh_loc cell_b (objects w))
    as [e|[h1 est]] eqn:Hc; [vm_compute in Hc; discriminate|].
  destruct (@run_online_estimate toy_moirae cell_b est h1) as [h2 r] eqn:Hrun.
  assert (Hr : r = inl LinAlgError).
  { vm_compute in Hc. injection Hc as <- <-.
    vm_compute in Hrun. by injection Hrun as _ <-. }
  subst r.
  destruct (@linalg_error_abandons_cell toy_moirae asoh_loc w path_b [path_a]
              cell_b h1 h2 est eq_refl eq_refl Hc Hrun)
    as (w' & Hb & Hf & Hs & He & Hl).
  exists h1, h2, est, w'. repeat (split; [done|]). exact Hl.
Defined.

Lemma output_written_last_witness :
  let w := start batch_files in
  let wa := world_of (@loop_body toy_moirae asoh_loc w path_a) in
  let wb := world_of (@loop_body toy_moirae asoh_loc w path_b) in
  (∃ ds cell h1 est h2 output,
     files wa !! ["estimates"; "a.hdf5"] = Some ds ∧
     files w !! path_a = Some cell ∧
     @create_estimator toy_moirae asoh_loc cell (objects w) = inr (h1, est) ∧
     @run_online_estimate toy_moirae cell est h1 = (h2, inr output) ∧
     append_estimates cell output = inr ds ∧
     @loop_body toy_moirae asoh_loc w path_a = Continue wa) ∧
  files wb = files w ∧ files wb !! ["estimates"; "b.hdf5"] = None ∧
  @loop_body toy_moirae asoh_loc w path_b = Continue wb.
Proof.
  intros w wa wb. split.
  - destruct (@output_written_last toy_moirae asoh_loc w path_a) as (_ & Hw & _).
    destruct (files wa !! ["estimates"; "a.hdf5"]) as [ds|] eqn:Hds;
      [|vm_compute in Hds; discriminate].
    destruct (Hw ds eq_refl Hds) as (cell & h1 & est & h2 & output & Hrest).
    exists ds, cell, h1, est, h2, output. split; [reflexivity | exact Hrest].
  - destruct (@output_written_last toy_moirae asoh_loc w path_b) as (_ & _ & Hw).
    destruct (@create_estimator toy_moirae asoh_loc cell_b (objects w))
      as [e|[h1 est]] eqn:Hc; [vm_compute in Hc; discriminate|].
    destruct (@run_online_estimate toy_moirae cell_b est h1) as [h2 r] eqn:Hrun.
    assert (Hr : r = inl LinAlgError).
    { vm_compute in Hc. injection Hc as <- <-.
      vm_compute in Hrun. by injection Hrun as _ <-. }
    subst r.
    destruct (Hw cell_b h1 est h2 eq_refl eq_refl Hc Hrun) as (Hf & Hn & Hb & _).
    split; [exact Hf|]. split; [exact Hn | exact Hb].
Defined.

Lemma batch_loop_idempotent_on_outputs_witness :
  let w := start (<[path_a := cell_a]> ∅) in
  let w1 := world_of (@batch_loop toy_moirae asoh_loc [path_a] w) in
  is_Some (files w1 !! joinpath estimate_dir (name path_a)) ∧
  @loop_body toy_moirae asoh_loc w1 path_a = Continue w1 ∧
  files (world_of (@batch_loop toy_moirae asoh_loc [path_a] w1))
    !! ["estimates"; "a.hdf5"] = files w1 !! ["estimates"; "a.hdf5"] ∧
  @batch_loop toy_moirae asoh_loc [path_a] w1 = Continue w1.
Proof.
  intros w w1.
  assert (Hex : is_Some (files w1 !! joinpath estimate_dir (name path_a))).
  { apply (bool_decide_unpack _). vm_compute. exact I. }
  destruct (@batch_loop_idempotent_on_outputs toy_moirae asoh_loc [path_a] w)
    as (_ & _ & Hkeep & Hnoop).
  destruct (@batch_loop_idempotent_on_outputs toy_moirae asoh_loc [path_a] w1)
    as (Hskip & _).
  split; [exact Hex|]. split; [exact (Hskip path_a Hex)|].
  split; [exact (Hkeep _ Hex)|].
  apply Hnoop. intros path Hp. apply list_elem_of_singleton in Hp. by subst path.
Defined.

Lemma estimator_built_once_per_cell_witness :
  let w := start batch_files in
  let w' := world_of (@batch_loop toy_moirae asoh_loc [path_a; path_b] w) in
  fresh_estimators w ∧ fresh_estimators w' ∧
  length (estimations w') = 2%nat ∧
  ∃ h' est tr,
    @create_estimator toy_moirae asoh_loc cell_a (objects w) = inr (h', est) ∧
    get_transient h' (initial_transients est) = inr tr ∧ soc tr = 1%Q.
Proof.
  intros w w'.
  assert (Hw : fresh_estimators w).
  { split; [apply NoDup_nil_2|]. split; [apply NoDup_nil_2|].
    intros pe Hpe. by apply elem_of_nil in Hpe. }
  destruct (@estimator_built_once_per_cell toy_moirae asoh_loc [path_a; path_b] w)
    as (Hcreate & _ & Hfresh).
  split; [exact Hw|]. split; [exact (Hfresh Hw)|]. split; [reflexivity|].
  destruct (@create_estimator toy_moirae asoh_loc cell_a (objects w))
    as [e|[h' est]] eqn:Hc; [vm_compute in Hc; discriminate|].
  destruct (Hcreate _ _ _ _ Hc) as [(tr & Htr & Hsoc) _].
  exists h', est, tr. split; [reflexivity|]. split; [exact Htr | exact Hsoc].
Defined.

(** ** The frame returned by the run *)

Lemma estimate_frame_shape (idx : list Z) (names : list string)
    (rows : list Posterior) :
  index (estimate_frame idx names rows) = idx ∧
  column_names (estimate_frame idx names rows) =
    names ++ ((λ x, x +:+ "_std") <$> names).
Proof.
  split; [done|]. unfold column_names, estimate_frame. simpl.
  rewrite fmap_app, !fmap_imap. f_equal.
  - rewrite (imap_ext _ (const id)) by done. by rewrite imap_const, list_fmap_id.
  - rewrite (imap_ext _ (const (λ x, x +:+ "_std"))) by done.
    by rewrite imap_const.
Qed.

(** A successful run returns one value column and one [_std] column per
    joint-state dimension, on the index of the raw data. *)
Lemma run_online_estimate_shape `{Moirae} (dataset : BatteryDataset)
    (est : JointEstimator) (h h' : heap) (output : DataFrame) :
  run_online_estimate dataset est h = (h', inr output) →
  ∃ a, read_asoh h (initial_asoh_of est) = inr a ∧
       index output = index (raw_data dataset) ∧
       column_names output =
         state_names a ++ ((λ x, x +:+ "_std") <$> state_names a).
Proof.
  unfold run_online_estimate. intros Hrun.
  destruct (read_asoh h (initial_asoh_of est)) as [e|a]; [by simplify_eq|].
  destruct (get_transient h (initial_transients est)) as [e|tr];
    [by simplify_eq|].
  destruct (measurement_stream dataset) as [e|stream]; [by simplify_eq|].
  destruct (online_loop est _ stream h []) as [h1 r1].
  injection Hrun as _ Hout.
  apply bind_inr in Hout as (rows & _ & Hout). injection Hout as <-.
  exists a. split; [done|]. apply estimate_frame_shape.
Qed.

(* ===================================================================== *)
(** * Part III: further properties of the notebook *)
(* ===================================================================== *)

(** ** The batch loop as a whole *)

Section BatchLoop.
Context `{Moirae}.
Variable initial_asoh : loc.

Lemma batch_loop_app (first rest : list Path) (w : world) :
  batch_loop initial_asoh (first ++ rest) w =
  match batch_loop initial_asoh first w with
  | Continue w' => batch_loop initial_asoh rest w'
  | Raise e w' => Raise e w'
  end.
Proof.
  revert w. induction first as [|path first IH]; intros w; [done|].
  cbn [app batch_loop].
  destruct (loop_body initial_asoh w path) as [w1|e w1]; [apply IH | done].
Qed.

Lemma loop_body_raise_files (w w' : world) (path : Path) (e : exn) :
  loop_body initial_asoh w path = Raise e w' →
  files w' = files w ∧ stdout w' = stdout w.
Proof.
  intros Hb.
  destruct (loop_body_cases initial_asoh w path)
    as [[_ Hc]|[(_ & _ & Hc)|[(cell & e0 & _ & _ & _ & Hc)|
        (cell & h1 & est & h2 & r & _ & _ & _ & _ & Hc)]]].
  - congruence.
  - rewrite Hc in Hb. by injection Hb as _ <-.
  - rewrite Hc in Hb. by injection Hb as _ <-.
  - cbv zeta in Hc. destruct r as [e0|output].
    + destruct e0; rewrite Hc in Hb; try discriminate; by injection Hb as _ <-.
    + destruct (append_estimates cell output); rewrite Hc in Hb;
        [by injection Hb as _ <- | discriminate].
Qed.

(** X6: an exception that leaves a pass (anything but the linear-algebra
    error of the run) ends the whole loop at that cell: the pass has
    written no file and printed nothing, and the cells after it are not
    looked at. *)
Theorem exception_ends_batch (before after : list Path) (path : Path)
    (w w1 w2 : world) (e : exn) :
  batch_loop initial_asoh before w = Continue w1 →
  loop_body initial_asoh w1 path = Raise e w2 →
  batch_loop initial_asoh (before ++ path :: after) w = Raise e w2 ∧
  files w2 = files w1 ∧ stdout w2 = stdout w1.
Proof.
  intros Hpre Hb. split; [|by eapply loop_body_raise_files].
  revert w Hpre. induction before as [|p before IH]; intros w Hpre.
  - simpl in Hpre. injection Hpre as ->. simpl. by rewrite Hb.
  - cbn [app batch_loop] in *.
    destruct (loop_body initial_asoh w p) as [w0|e0 w0]; [by apply IH | done].
Qed.

(** What a pass does to a single path of the file system. *)
Lemma loop_body_file_change (w : world) (path p : Path) :
  let w' := world_of (loop_body initial_asoh w path) in
  files w' !! p = files w !! p ∨
  (p = joinpath estimate_dir (name path) ∧ files w !! p = None ∧
   is_Some (files w' !! p)).
Proof.
  cbv zeta.
  destruct (loop_body_cases initial_asoh w path)
    as [[_ ->]|[(_ & _ & ->)|[(cell & e & _ & _ & _ & ->)|
        (cell & h1 & est & h2 & r & Hout & _ & _ & _ & Hr)]]]; [by left..|].
  cbv zeta in Hr.
  destruct r as [[]|output]; try (rewrite Hr; by left).
  destruct (append_estimates cell output) as [e|cell']; rewrite Hr; [by left|].
  simpl. destruct (decide (p = joinpath estimate_dir (name path))) as [->|Hne].
  - right. rewrite lookup_insert_eq. eauto.
  - left. by rewrite lookup_insert_ne.
Qed.

(** X7: the loop only adds files, and only outputs: a path whose content
    differs after the loop had no file before, has one after, and is
    [estimates/<name>] for one of the cells of the batch.  Nothing is
    deleted, nothing is overwritten, nothing is written elsewhere. *)
Theorem batch_loop_writes_only_outputs (all_cells : list Path) (w : world)
    (p : Path) :
  let w' := world_of (batch_loop initial_asoh all_cells w) in
  files w' !! p = files w !! p ∨
  (files w !! p = None ∧ is_Some (files w' !! p) ∧
   ∃ path, path ∈ all_cells ∧ p = joinpath estimate_dir (name path)).
Proof.
  cbv zeta. revert w. induction all_cells as [|path rest IH]; intros w; [by left|].
  cbn [batch_loop].
  pose proof (loop_body_file_change w path p) as Hb. cbv zeta in Hb.
  destruct (loop_body initial_asoh w path) as [w1|e w1]; simpl in Hb.
  - destruct (IH w1) as [Hsame|(Hnone & Hsome & q & Hq & ->)].
    + rewrite Hsame. destruct Hb as [Hb|(-> & Hnone & Hsome)]; [by left|].
      right. split; [done|]. split; [done|]. exists path. split; [left | done].
    + destruct Hb as [Hb|(_ & _ & Hsome1)].
      * right. split; [congruence|]. split; [done|].
        exists q. split; [by right | done].
      * rewrite Hnone in Hsome1. by apply is_Some_None in Hsome1.
  - simpl. destruct Hb as [Hb|(-> & Hnone & Hsome)]; [by left|].
    right. split; [done|]. split; [done|]. exists path. split; [left | done].
Qed.

Lemma loop_body_stdout (w : world) (path : Path) :
  let w' := world_of (loop_body initial_asoh w path) in
  stdout w' = stdout w ∨ stdout w' = stdout w ++ [failure_message path].
Proof.
  cbv zeta.
  destruct (loop_body_cases initial_asoh w path)
    as [[_ ->]|[(_ & _ & ->)|[(cell & e & _ & _ & _ & ->)|
        (cell & h1 & est & h2 & r & _ & _ & _ & _ & Hr)]]]; [by left..|].
  cbv zeta in Hr.
  destruct r as [[]|output]; try (rewrite Hr; by left); [rewrite Hr; by right|].
  destruct (append_estimates cell output); rewrite Hr; by left.
Qed.

(** A pass prints the failure line of its cell when the run raises a
    linear-algebra error, and nothing otherwise. *)
Lemma loop_body_prints (w : world) (path : Path) :
  (linalg_failure initial_asoh w path ∧
   ∃ w', loop_body initial_asoh w path = Continue w' ∧
         stdout w' = stdout w ++ [failure_message path]) ∨
  (¬ linalg_failure initial_asoh w path ∧
   stdout (world_of (loop_body initial_asoh w path)) = stdout w).
Proof.
  destruct (loop_body_cases initial_asoh w path)
    as [[Hex Hc]|[(Hout & Hno & Hc)|[(cell & e & Hout & Hcell & Hce & Hc)|
        (cell & h1 & est & h2 & r & Hout & Hcell & Hce & Hrun & Hc)]]].
  - right. split; [|by rewrite Hc].
    intros [Hnone _]. rewrite Hnone in Hex. by apply is_Some_None in Hex.
  - right. split; [|by rewrite Hc].
    intros (_ & c & ? & ? & ? & Hsome & _). congruence.
  - right. split; [|by rewrite Hc].
    intros (_ & c & ? & ? & ? & Hsome & Hok & _). congruence.
  - cbv zeta in Hc.
    assert (Hnot : r ≠ inl LinAlgError → ¬ linalg_failure initial_asoh w path).
    { intros Hr (_ & c & x1 & x2 & x3 & Hsome & Hok & Hfail).
      rewrite Hcell in Hsome. injection Hsome as <-.
      rewrite Hce in Hok. injection Hok as <- <-.
      rewrite Hrun in Hfail. by injection Hfail as _ ->. }
    destruct r as [e|output].
    + destruct e; try (right; split; [by apply Hnot | by rewrite Hc]).
      left. split.
      * split; [done|]. by exists cell, h1, est, h2.
      * eexists. split; [exact Hc | done].
    + right. split; [by apply Hnot|].
      destruct (append_estimates cell output); by rewrite Hc.
Qed.

(** X8: what the loop prints is exactly one line per run that raised a
    linear-algebra error.  The lines added to the output are the failure
    messages of the cells at the positions [i] of the batch, in increasing
    order, such that the loop reached position [i] and the run of the cell
    there raised a linear-algebra error in the world the loop had reached;
    no other pass prints. *)
Theorem batch_loop_prints_only_failures (all_cells : list Path) (w : world) :
  ∃ failed : list (nat * Path),
    StronglySorted lt failed.*1 ∧
    stdout (world_of (batch_loop initial_asoh all_cells w)) =
      stdout w ++ (failure_message <$> failed.*2) ∧
    ∀ i path, (i, path) ∈ failed ↔
      all_cells !! i = Some path ∧
      ∃ w1, batch_loop initial_asoh (take i all_cells) w = Continue w1 ∧
            linalg_failure initial_asoh w1 path.
Proof.
  induction all_cells as [|p cells IH] using rev_ind.
  - exists []. split; [constructor|]. split; [simpl; by rewrite app_nil_r|].
    intros i path. split; [by intros ?%elem_of_nil | by intros [? _]].
  - destruct IH as (failed & Hsort & Hout & Hiff).
    assert (Hbound : ∀ i path, (i, path) ∈ failed → (i < length cells)%nat).
    { intros i path [Hl _]%Hiff. by eapply lookup_lt_Some. }
    assert (Hold : ∀ i path, (i, path) ∈ failed ↔
      (i < length cells)%nat ∧ (cells ++ [p]) !! i = Some path ∧
      ∃ w1, batch_loop initial_asoh (take i (cells ++ [p])) w = Continue w1 ∧
            linalg_failure initial_asoh w1 path).
    { intros i path. split.
      - intros Hin. pose proof (Hbound _ _ Hin) as Hlt. split; [done|].
        rewrite lookup_app_l, take_app_le by lia. by apply Hiff.
      - intros (Hlt & Hrest). apply Hiff.
        by rewrite lookup_app_l, take_app_le in Hrest by lia. }
    assert (Hlast : ∀ i path, (cells ++ [p]) !! i = Some path →
                      (i < length cells)%nat ∨ (i = length cells ∧ path = p)).
    { intros i path [[Hlt _]|[-> <-]]%lookup_snoc_Some; [by left | by right]. }
    rewrite batch_loop_app.
    destruct (batch_loop initial_asoh cells w) as [w1|e w1] eqn:Hcells.
    + cbn [batch_loop].
      assert (Hw : world_of (match loop_body initial_asoh w1 p with
                             | Continue w' => Continue w'
                             | Raise e w' => Raise e w'
                             end) = world_of (loop_body initial_asoh w1 p))
        by (by destruct (loop_body initial_asoh w1 p)).
      rewrite Hw. simpl in Hout.
      destruct (loop_body_prints w1 p) as [(Hfail & w' & Hb & Hs)|(Hno & Hs)].
      * rewrite Hb. simpl. exists (failed ++ [(length cells, p)]).
        split.
        { rewrite fmap_app. apply StronglySorted_app_2; [|done|repeat constructor].
          intros x1 x2 Hx1 ->%list_elem_of_singleton.
          apply list_elem_of_fmap in Hx1 as ([i q] & -> & Hin). simpl.
          by eapply Hbound. }
        split.
        { rewrite Hs, Hout, !fmap_app. simpl. by rewrite app_assoc. }
        intros i path. rewrite elem_of_app, list_elem_of_singleton. split.
        -- intros [Hin|Heq].
           ++ by apply Hold in Hin as [_ ?].
           ++ injection Heq as -> ->. split; [by rewrite list_lookup_middle|].
              exists w1. by rewrite take_app_length.
        -- intros [Hl Hrun].
           destruct (Hlast _ _ Hl) as [Hlt|[-> ->]]; [|by right].
           left. by apply Hold.
      * rewrite Hs. exists failed. split; [done|]. split; [done|].
        intros i path. split.
        -- intros Hin. by apply Hold in Hin as [_ ?].
        -- intros [Hl Hrun].
           destruct (Hlast _ _ Hl) as [Hlt|[-> ->]]; [by apply Hold|].
           exfalso. destruct Hrun as (w2 & Hw2 & Hf).
           rewrite take_app_length, Hcells in Hw2. injection Hw2 as <-.
           by apply Hno.
    + simpl in *. exists failed. split; [done|]. split; [done|].
      intros i path. split.
      * intros Hin. by apply Hold in Hin as [_ ?].
      * intros [Hl Hrun].
        destruct (Hlast _ _ Hl) as [Hlt|[-> ->]]; [by apply Hold|].
        exfalso. destruct Hrun as (w2 & Hw2 & _).
        rewrite take_app_length, Hcells in Hw2. discriminate.
Qed.

Lemma batch_loop_stdout_mono (all_cells : list Path) (w : world) (line : string) :
  line ∈ stdout w →
  line ∈ stdout (world_of (batch_loop initial_asoh all_cells w)).
Proof.
  revert w. induction all_cells as [|path rest IH]; intros w Hl; [done|].
  cbn [batch_loop].
  pose proof (loop_body_stdout w path) as Hb. cbv zeta in Hb.
  assert (Hl1 : line ∈ stdout (world_of (loop_body initial_asoh w path))).
  { destruct Hb as [->| ->]; [done|]. apply elem_of_app. by left. }
  destruct (loop_body initial_asoh w path) as [w1|e w1]; [by apply IH | done].
Qed.

Lemma loop_body_accounts (w w' : world) (path : Path) :
  loop_body initial_asoh w path = Continue w' →
  is_Some (files w' !! joinpath estimate_dir (name path)) ∨
  failure_message path ∈ stdout w'.
Proof.
  intros Hb.
  destruct (loop_body_cases initial_asoh w path)
    as [[Hex Hc]|[(_ & _ & Hc)|[(cell & e & _ & _ & _ & Hc)|
        (cell & h1 & est & h2 & r & _ & _ & _ & _ & Hc)]]].
  - left. congruence.
  - congruence.
  - congruence.
  - cbv zeta in Hc. destruct r as [e|output].
    + destruct e; rewrite Hc in Hb; try discriminate.
      injection Hb as <-. right. simpl. apply elem_of_app. right. left.
    + destruct (append_estimates cell output); rewrite Hc in Hb; [discriminate|].
      injection Hb as <-. left. simpl. rewrite lookup_insert_eq. eauto.
Qed.

(** X9: when the loop runs to its end every cell of the batch is accounted
    for: its output file exists or its failure line has been printed. *)
Theorem completed_batch_accounts_for_every_cell (all_cells : list Path)
    (w w' : world) (path : Path) :
  batch_loop initial_asoh all_cells w = Continue w' →
  path ∈ all_cells →
  is_Some (files w' !! joinpath estimate_dir (name path)) ∨
  failure_message path ∈ stdout w'.
Proof.
  revert w. induction all_cells as [|p rest IH]; intros w Hl Hin.
  - by apply elem_of_nil in Hin.
  - cbn [batch_loop] in Hl.
    destruct (loop_body initial_asoh w p) as [w1|e w1] eqn:Hb; [|done].
    apply elem_of_cons in Hin as [->|Hin]; [|by eapply IH].
    assert (Hw' : w' = world_of (batch_loop initial_asoh rest w1)) by by rewrite Hl.
    destruct (loop_body_accounts _ _ _ Hb) as [Hf|Hs].
    + left. rewrite Hw'.
      by rewrite (batch_loop_keeps_files initial_asoh rest w1 _ Hf).
    + right. rewrite Hw'. by apply batch_loop_stdout_mono.
Qed.

End BatchLoop.

(** ** The objects of the notebook during the batch *)

Section BatchObjects.
Context `{Moirae}.
Variable initial_asoh : loc.

(** One pass leaves every existing object as it is and loses none. *)
Lemma loop_body_objects (w : world) (path : Path) :
  let w' := world_of (loop_body initial_asoh w path) in
  dom (objects w) ⊆ dom (objects w') ∧
  ∀ l, l ∈ dom (objects w) → objects w' !! l = objects w !! l.
Proof.
  cbv zeta.
  destruct (loop_body_effect initial_asoh w path)
    as [->|(cell & h1 & est & h2 & r & _ & Hc & Hrun & Hobj & _)]; [done|].
  destruct (create_estimator_heap _ _ _ _ _ Hc)
    as (a & ql & rl & ol & rf & _ & _ & _ & _ & Hfresh & _ & Hwork & Hsub & Hframe).
  rewrite !Forall_cons in Hfresh.
  destruct Hfresh as (Ft & Fc & Fq & Fr & _).
  apply run_online_estimate_spec in Hrun as (Hd2 & _ & Hrun).
  rewrite Hobj, Hd2. split; [done|].
  intros l Hl. rewrite Hrun; [by apply Hframe|].
  rewrite Hwork, !not_elem_of_cons.
  repeat split; [by intros ->..|apply not_elem_of_nil].
Qed.

Lemma batch_loop_objects (all_cells : list Path) (w : world) :
  let w' := world_of (batch_loop initial_asoh all_cells w) in
  dom (objects w) ⊆ dom (objects w') ∧
  ∀ l, l ∈ dom (objects w) → objects w' !! l = objects w !! l.
Proof.
  cbv zeta. revert w. induction all_cells as [|path rest IH]; intros w; [done|].
  cbn [batch_loop].
  pose proof (loop_body_objects w path) as [Hsub Hfr]. cbv zeta in Hsub, Hfr.
  destruct (loop_body initial_asoh w path) as [w1|e w1]; simpl in *; [|done].
  destruct (IH w1) as [Hsub' Hfr'].
  split; [set_solver|]. intros l Hl. rewrite Hfr' by set_solver. by apply Hfr.
Qed.

(** X10: the batch loop changes no object that existed when it started,
    whatever happens to the individual cells; in particular the shared
    [initial_asoh] reads after the loop as it read before, so every cell
    is estimated from the same initial parameters. *)
Theorem batch_loop_keeps_initial_asoh (all_cells : list Path) (w : world)
    (a : ASOHValue) :
  read_asoh (objects w) initial_asoh = inr a →
  let w' := world_of (batch_loop initial_asoh all_cells w) in
  (∀ l, l ∈ dom (objects w) → objects w' !! l = objects w !! l) ∧
  read_asoh (objects w') initial_asoh = inr a ∧
  ∀ first rest w1, all_cells = first ++ rest →
    batch_loop initial_asoh first w = Continue w1 →
    read_asoh (objects w1) initial_asoh = inr a.
Proof.
  intros Ha. cbv zeta.
  destruct (batch_loop_objects all_cells w) as [_ Hfr].
  split; [done|]. split; [by eapply read_asoh_frame|].
  intros first rest w1 _ Hfirst.
  destruct (batch_loop_objects first w) as [_ Hfr1].
  rewrite Hfirst in Hfr1. by eapply read_asoh_frame.
Qed.

(** The prior covariances depend on the heap only through the contents of
    [initial_asoh]. *)
Lemma create_estimator_covariances (d1 d2 : BatteryDataset) (hb h1 h2 h1' h2' : heap)
    (e1 e2 : JointEstimator) (a : ASOHValue) :
  read_asoh hb initial_asoh = inr a →
  (∀ l, l ∈ dom hb → h1 !! l = hb !! l) →
  (∀ l, l ∈ dom hb → h2 !! l = hb !! l) →
  create_estimator initial_asoh d1 h1 = inr (h1', e1) →
  create_estimator initial_asoh d2 h2 = inr (h2', e2) →
  covariances e1 = covariances e2.
Proof.
  intros Ha F1 F2 C1 C2.
  pose proof (read_asoh_frame _ _ _ _ F1 Ha) as A1.
  pose proof (read_asoh_frame _ _ _ _ F2 Ha) as A2.
  apply create_estimator_inv in C1
    as (ql1 & qt1 & q1 & rl1 & r1 & a1 & t1 & i1 &
        Hq1 & Hqt1 & Hb1 & Hr1 & Hrr1 & _ & _ & _ & C1).
  apply create_estimator_inv in C2
    as (ql2 & qt2 & q2 & rl2 & r2 & a2 & t2 & i2 &
        Hq2 & Hqt2 & Hb2 & Hr2 & Hrr2 & _ & _ & _ & C2).
  cbv zeta in C1, C2. destruct C1 as [_ E1], C2 as [_ E2].
  apply read_asoh_lookup in A1 as (x1 & y1 & o1 & f1 & R1 & Q1 & P1 & _).
  apply read_asoh_lookup in A2 as (x2 & y2 & o2 & f2 & R2 & Q2 & P2 & _).
  unfold attr_q_t, attr_r0 in Hq1, Hr1, Hq2, Hr2.
  rewrite R1 in Hq1, Hr1. rewrite R2 in Hq2, Hr2. simplify_eq.
  unfold get_health in Hqt1, Hrr1, Hqt2, Hrr2.
  rewrite Q1 in Hqt1. rewrite P1 in Hrr1. rewrite Q2 in Hqt2. rewrite P2 in Hrr2.
  simplify_eq.
  assert (q1 = q2) as -> by congruence.
  rewrite E1, E2. reflexivity.
Qed.

(** The estimators of the runs made were built on heaps that agree with
    the heap at the start of the batch. *)
Lemma batch_loop_estimators (hb : heap) (all_cells : list Path) (w : world) :
  dom hb ⊆ dom (objects w) →
  (∀ l, l ∈ dom hb → objects w !! l = hb !! l) →
  (∀ pe, pe ∈ estimations w →
     ∃ d h h', (∀ l, l ∈ dom hb → h !! l = hb !! l) ∧
               create_estimator initial_asoh d h = inr (h', pe.2)) →
  ∀ pe, pe ∈ estimations (world_of (batch_loop initial_asoh all_cells w)) →
    ∃ d h h', (∀ l, l ∈ dom hb → h !! l = hb !! l) ∧
              create_estimator initial_asoh d h = inr (h', pe.2).
Proof.
  revert w. induction all_cells as [|path rest IH]; intros w Hsub Hfr Hold; [done|].
  cbn [batch_loop].
  pose proof (loop_body_objects w path) as [Hsub1 Hfr1]. cbv zeta in Hsub1, Hfr1.
  pose proof (loop_body_effect initial_asoh w path) as Heff. cbv zeta in Heff.
  assert (Hnew : ∀ pe,
    pe ∈ estimations (world_of (loop_body initial_asoh w path)) →
    ∃ d h h', (∀ l, l ∈ dom hb → h !! l = hb !! l) ∧
              create_estimator initial_asoh d h = inr (h', pe.2)).
  { destruct Heff as [->|(cell & h1 & est & h2 & r & _ & Hc & _ & _ & ->)];
      [done|].
    intros pe [->|Hin]%elem_of_cons; [|by apply Hold].
    exists cell, (objects w), h1. split; [done|]. exact Hc. }
  destruct (loop_body initial_asoh w path) as [w1|e w1]; simpl in *; [|done].
  apply IH; [set_solver| |done].
  intros l Hl. rewrite Hfr1 by set_solver. by apply Hfr.
Qed.

(** X11: all the cells of a batch are estimated from the same prior: the
    estimators the loop builds have the same five covariance matrices,
    whatever the datasets and whatever the earlier runs wrote. *)
Theorem batch_uses_one_prior (all_cells : list Path) (w : world)
    (a : ASOHValue) (pe1 pe2 : Path * JointEstimator) :
  read_asoh (objects w) initial_asoh = inr a →
  estimations w = [] →
  let w' := world_of (batch_loop initial_asoh all_cells w) in
  pe1 ∈ estimations w' → pe2 ∈ estimations w' →
  covariances pe1.2 = covariances pe2.2.
Proof.
  intros Ha Hnil. cbv zeta. intros H1 H2.
  assert (Hall : ∀ pe,
    pe ∈ estimations (world_of (batch_loop initial_asoh all_cells w)) →
    ∃ d h h', (∀ l, l ∈ dom (objects w) → h !! l = objects w !! l) ∧
              create_estimator initial_asoh d h = inr (h', pe.2)).
  { apply batch_loop_estimators; [done..|].
    rewrite Hnil. intros pe Hpe. by apply elem_of_nil in Hpe. }
  destruct (Hall _ H1) as (d1 & h1 & h1' & F1 & C1).
  destruct (Hall _ H2) as (d2 & h2 & h2' & F2 & C2).
  exact (create_estimator_covariances d1 d2 (objects w) h1 h2 h1' h2'
           pe1.2 pe2.2 a Ha F1 F2 C1 C2).
Qed.

End BatchObjects.

(** ** Finding the cells *)

Lemma path_compare_antisym (p q : Path) :
  path_compare p q = CompOpp (path_compare q p).
Proof.
  revert q. induction p as [|a p IH]; intros [|b q]; simpl; try done.
  rewrite (String.compare_antisym a b).
  destruct (String.compare b a); simpl; [apply IH | done..].
Qed.

Lemma path_le_total : Total path_le.
Proof.
  intros p q. unfold path_le. rewrite (path_compare_antisym q p).
  destruct (path_compare p q); simpl; [left | left | right]; done.
Qed.

Lemma name_snoc (dir : Path) (n : string) : name (dir ++ [n]) = n.
Proof. unfold name. by rewrite last_snoc. Qed.

Lemma parent_snoc (dir : Path) (n : string) : parent (dir ++ [n]) = dir.
Proof.
  unfold parent. rewrite length_app. simpl.
  replace (length dir + 1 - 1)%nat with (length dir) by lia.
  by rewrite take_app_length.
Qed.

Lemma matches_hdf5_spec (dir p : Path) :
  matches_hdf5 dir p = true ↔
  ∃ n, p = dir ++ [n] ∧ endswith n ".hdf5" = true.
Proof.
  unfold matches_hdf5. rewrite andb_true_iff, bool_decide_eq_true. split.
  - intros [[Hne Hpar] Hend].
    destruct p as [|a p] using rev_ind; [done|].
    rewrite parent_snoc in Hpar. rewrite name_snoc in Hend. subst. eauto.
  - intros (n & -> & Hend). rewrite parent_snoc, name_snoc.
    split; [|done]. split; [|done]. by destruct dir.
Qed.

Lemma list_ascii_of_string_app (a b : string) :
  String.list_ascii_of_string (a +:+ b) =
  String.list_ascii_of_string a ++ String.list_ascii_of_string b.
Proof. induction a as [|c a IH]; simpl; [done | by rewrite IH]. Qed.

Lemma endswith_spec (s suffix : string) :
  endswith s suffix = true ↔ ∃ stem, s = stem +:+ suffix.
Proof.
  unfold endswith. rewrite bool_decide_eq_true. split.
  - intros [k Hk]. exists (String.string_of_list_ascii k).
    rewrite <- (String.string_of_list_ascii_of_string s).
    rewrite <- (String.string_of_list_ascii_of_string
                  (String.string_of_list_ascii k +:+ suffix)).
    f_equal. rewrite list_ascii_of_string_app.
    by rewrite String.list_ascii_of_string_of_list_ascii.
  - intros [stem ->]. rewrite list_ascii_of_string_app.
    by exists (String.list_ascii_of_string stem).
Qed.

Lemma elem_of_find_cells (dirs : gset Path) (fs : gmap Path BatteryDataset)
    (p : Path) :
  p ∈ find_cells dirs fs ↔
  (is_Some (fs !! p) ∨ p ∈ dirs) ∧ ∃ stem, p = ["synth-data"; stem +:+ ".hdf5"].
Proof.
  unfold find_cells, sorted_paths, glob_hdf5.
  rewrite merge_sort_Permutation, list_elem_of_filter, elem_of_elements,
    elem_of_union, elem_of_dom, matches_hdf5_spec.
  split.
  - intros [(n & -> & [stem ->]%endswith_spec) Hin]. split; [done|]. by exists stem.
  - intros [Hin [stem ->]]. split; [|done].
    exists (stem +:+ ".hdf5"). split; [done|]. apply endswith_spec. by exists stem.
Qed.

(** X15: the cells found are exactly the entries of [synth-data], files
    and directories alike, whose name is some stem followed by [.hdf5];
    the list has no duplicates and is in path order; the cells have
    distinct names, so distinct output paths, and no output path is itself
    a cell. *)
Theorem find_cells_spec (dirs : gset Path) (fs : gmap Path BatteryDataset) :
  (∀ p, p ∈ find_cells dirs fs ↔
        (is_Some (fs !! p) ∨ p ∈ dirs) ∧
        ∃ stem, p = ["synth-data"; stem +:+ ".hdf5"]) ∧
  NoDup (find_cells dirs fs) ∧
  Sorted path_le (find_cells dirs fs) ∧
  NoDup ((λ p, joinpath estimate_dir (name p)) <$> find_cells dirs fs) ∧
  ∀ p, p ∈ find_cells dirs fs →
    joinpath estimate_dir (name p) ∉ find_cells dirs fs.
Proof.
  split; [apply elem_of_find_cells|].
  assert (Hnd : NoDup (find_cells dirs fs)).
  { unfold find_cells, sorted_paths, glob_hdf5.
    rewrite merge_sort_Permutation. apply NoDup_filter, NoDup_elements. }
  split; [done|]. split.
  { unfold find_cells, sorted_paths.
    apply (@Sorted_merge_sort _ path_le _ path_le_total). }
  split.
  - apply NoDup_fmap_2_strong; [|done].
    intros p q (_ & n & -> )%elem_of_find_cells (_ & m & ->)%elem_of_find_cells.
    unfold joinpath, name. simpl. congruence.
  - intros p _ (_ & m & Hm)%elem_of_find_cells.
    unfold joinpath, estimate_dir in Hm. simpl in Hm. congruence.
Qed.


(** The cells of a small disk: without and with a directory whose name
    matches the pattern. *)
Example find_cells_disk :
  find_cells disk_dirs disk
  = [["synth-data"; "a.hdf5"]; ["synth-data"; "b.hdf5"]] ∧
  find_cells disk_dirs' disk
  = [["synth-data"; "a.hdf5"]; ["synth-data"; "archive.hdf5"];
     ["synth-data"; "b.hdf5"]].
Proof. split; vm_compute; reflexivity. Qed.

(** ** Appending the estimates: the cycle statistics *)

Section CycleStats.
Local Open Scope Q_scope.

Lemma join_column_names (left right joined : DataFrame) :
  join left right = inr joined →
  overlap (column_names left) (column_names right) = false ∧
  column_names joined = column_names left ++ column_names right.
Proof.
  unfold join. destruct (overlap _ _) eqn:Ho; [done|].
  intros Hj. injection Hj as <-. split; [done|].
  unfold column_names. simpl. rewrite fmap_app, <- !list_fmap_compose.
  f_equal; apply list_fmap_ext; by intros ? [].
Qed.

Lemma join_overlap (left right : DataFrame) (n : string) :
  n ∈ column_names left → n ∈ column_names right →
  join left right = inl ValueError.
Proof.
  intros Hl Hr. unfold join.
  replace (overlap (column_names left) (column_names right)) with true; [done|].
  symmetry. apply bool_decide_eq_true, Exists_exists. eauto.
Qed.

Lemma column_names_rename (f : string → string) (df : DataFrame) :
  column_names (rename f df) = f <$> column_names df.
Proof.
  unfold column_names, rename. simpl. rewrite <- !list_fmap_compose.
  apply list_fmap_ext. by intros ? [].
Qed.

Lemma est_not_cycle_number (x : string) : est_ x ≠ "cycle_number".
Proof. done. Qed.

Lemma assoc_set_assoc_eq (n : string) (vs : list value)
    (cols : list (string * list value)) :
  assoc n (set_assoc n vs cols) = Some vs.
Proof.
  induction cols as [|[m ws] cols IH]; simpl.
  - by rewrite decide_True.
  - case_decide as Hm; simpl.
    + by rewrite decide_True.
    + by rewrite decide_False.
Qed.

Lemma filter_set_assoc (n : string) (vs : list value)
    (cols : list (string * list value)) :
  filter (λ c, c.1 ≠ n) (set_assoc n vs cols) = filter (λ c, c.1 ≠ n) cols.
Proof.
  induction cols as [|[m ws] cols IH]; simpl.
  - by rewrite filter_cons_False by (simpl; tauto).
  - case_decide as Hm.
    + subst m. by rewrite !filter_cons_False by (simpl; tauto).
    + rewrite !filter_cons_True by done. by rewrite IH.
Qed.

Lemma filter_fmap_filtered (n : string)
    (F : string * list value → string * list value)
    (cols : list (string * list value)) :
  (∀ c, (F c).1 = c.1) →
  filter (λ c, c.1 ≠ n) (F <$> filter (λ c, c.1 ≠ n) cols)
  = F <$> filter (λ c, c.1 ≠ n) cols.
Proof.
  intros HF. induction cols as [|c cols IH]; [done|].
  destruct (decide (c.1 ≠ n)) as [Hc|Hc].
  - rewrite (filter_cons_True (λ c, c.1 ≠ n) c) by done. csimpl.
    rewrite filter_cons_True by (by rewrite HF). by rewrite IH.
  - by rewrite (filter_cons_False (λ c, c.1 ≠ n) c) by done.
Qed.

Lemma assoc_group_columns (n x : string) (G : list value → list value)
    (cols : list (string * list value)) :
  x ≠ n →
  assoc x ((λ c, (c.1, G c.2)) <$> filter (λ c, c.1 ≠ n) cols)
  = G <$> assoc x cols.
Proof.
  intros Hx. induction cols as [|[m ws] cols IH]; [done|].
  destruct (decide (m = n)) as [->|Hm].
  - rewrite filter_cons_False by (simpl; tauto). simpl.
    by rewrite decide_False by done.
  - rewrite filter_cons_True by done. simpl. by case_decide.
Qed.

Lemma positions_range_index (l : Z) (k a j : nat) :
  positions l (Z.of_nat <$> seq a k) j =
  if decide (Z.of_nat a ≤ l < Z.of_nat a + Z.of_nat k)%Z
  then [(j + (Z.to_nat l - a))%nat] else [].
Proof.
  revert a j. induction k as [|k IH]; intros a j; simpl.
  - by rewrite decide_False by lia.
  - rewrite IH. destruct (decide (Z.of_nat a = l)) as [<-|Hne].
    + rewrite decide_False, decide_True by lia. simpl.
      f_equal. lia.
    + simpl. repeat case_decide; try lia; [|done]. f_equal. lia.
Qed.

Lemma NoDup_range_index (k : nat) : NoDup (Z.of_nat <$> seq 0 k).
Proof. apply NoDup_fmap_2; [apply _ | apply NoDup_seq]. Qed.

Lemma assoc_Some_in (n : string) (cols : list (string * list value)) vs :
  assoc n cols = Some vs → (n, vs) ∈ cols.
Proof.
  induction cols as [|[m ws] cols IH]; [done|].
  simpl. case_decide; intros Hn; simplify_eq; [left | right; auto].
Qed.

Lemma wf_frame_assoc (df : DataFrame) (n : string) (vs : list value) :
  wf_frame df → assoc n (columns df) = Some vs → length vs = length (index df).
Proof.
  intros Hwf Hn%assoc_Some_in. unfold wf_frame in Hwf.
  rewrite Forall_forall in Hwf. apply (Hwf _ Hn).
Qed.

(** The frame of per-cycle means that is joined to the cycle statistics:
    one row per distinct cycle number, in increasing order, labelled
    0, 1, 2, ... *)
Lemma append_estimates_cycle_stats (cell cell' : BatteryDataset)
    (output : DataFrame) (cyc : list value) :
  wf_frame (raw_data cell) → NoDup (index output) →
  index output = index (raw_data cell) →
  assoc "cycle_number" (columns (raw_data cell)) = Some cyc →
  append_estimates cell output = inr cell' →
  join (cycle_stats cell)
    (rename est_
       (mkFrame (Z.of_nat <$> seq 0 (length (group_keys cyc)))
          ((λ c, (c.1, (λ k, nanmean (group_values cyc c.2 k)) <$> group_keys cyc))
             <$> filter (λ c, c.1 ≠ "cycle_number") (columns output))))
  = inr (cycle_stats cell').
Proof.
  intros Hwf Hnd Hidx Hcyc Ha. unfold append_estimates in Ha.
  apply bind_inr in Ha as (raw & Hraw & Ha).
  destruct (join_spec (raw_data cell) (rename est_ output) _ Hwf Hnd Hraw)
    as (Hi & _ & Hleft & _).
  apply bind_inr in Ha as (s & Hs & Ha).
  unfold getitem in Hs. rewrite (Hleft _ _ Hcyc) in Hs. injection Hs as <-.
  apply bind_inr in Ha as (output' & Hset & Ha).
  assert (Hlen : length cyc = length (index output)).
  { rewrite Hidx. apply (wf_frame_assoc _ _ _ Hwf Hcyc). }
  unfold setitem, reindex in Hset. simpl in Hset.
  rewrite decide_False in Hset.
  2:{ intros [Hnil Hne]. rewrite Hnil in Hlen. by destruct cyc. }
  rewrite decide_True in Hset by congruence. simpl in Hset.
  injection Hset as <-.
  apply bind_inr in Ha as (means & Hg & Ha).
  unfold groupby_mean in Hg. simpl in Hg.
  rewrite assoc_set_assoc_eq, filter_set_assoc in Hg. injection Hg as <-.
  cbv zeta in Ha.
  apply bind_inr in Ha as (dropped & Hd & Ha).
  unfold drop_column, reset_index, column_names in Hd. simpl in Hd.
  rewrite filter_cons_False in Hd by (simpl; tauto).
  rewrite filter_fmap_filtered in Hd by done.
  injection Hd as <-.
  apply bind_inr in Ha as (stats & Hj & Ha). injection Ha as <-.
  exact Hj.
Qed.

(** *** The distinct cycle numbers *)

Lemma elem_of_insert_key (k : Q) (ks : list Q) (x : Q) :
  x ∈ insert_key k ks → x = k ∨ x ∈ ks.
Proof.
  induction ks as [|k' ks IH]; simpl.
  - intros ->%list_elem_of_singleton. by left.
  - destruct (Qeq_bool k k'); [by right|].
    destruct (Qle_bool k k').
    + intros [->|Hx]%elem_of_cons; [by left | by right].
    + intros [->|Hx]%elem_of_cons; [right; left|].
      destruct (IH Hx) as [->|Hin]; [by left | right; by right].
Qed.

Lemma insert_key_sorted (k : Q) (ks : list Q) :
  StronglySorted Qlt ks → StronglySorted Qlt (insert_key k ks).
Proof.
  induction 1 as [|k' ks Hs IH Hall]; simpl.
  - repeat constructor.
  - destruct (Qeq_bool k k') eqn:He; [by constructor|].
    apply Qeq_bool_neq in He.
    destruct (Qle_bool k k') eqn:Hle.
    + apply Qle_bool_iff in Hle.
      assert (Hlt : k < k') by (apply Qle_lteq in Hle as [|]; [done | tauto]).
      constructor; [by constructor|].
      constructor; [done|].
      eapply Forall_impl; [exact Hall|]. intros y Hy. simpl in Hy. lra.
    + assert (Hlt : k' < k).
      { apply Qnot_le_lt. intros Hc%Qle_bool_iff. congruence. }
      constructor; [done|].
      apply Forall_forall. intros y [->|Hy]%elem_of_insert_key; [done|].
      by eapply (Forall_forall (Qlt k') ks).
Qed.

Lemma group_keys_sorted (keys : list value) : StronglySorted Qlt (group_keys keys).
Proof.
  induction keys as [|[k|] keys IH]; simpl; [constructor| |done].
  by apply insert_key_sorted.
Qed.

Lemma elem_of_group_keys (keys : list value) (x : Q) :
  x ∈ group_keys keys → Some x ∈ keys.
Proof.
  induction keys as [|[k|] keys IH]; simpl.
  - intros Hx. by apply elem_of_nil in Hx.
  - intros [->|Hx]%elem_of_insert_key; [left | right; auto].
  - intros Hx. right. auto.
Qed.

Lemma insert_key_covers (k : Q) (ks : list Q) :
  (∃ y, y ∈ insert_key k ks ∧ y == k) ∧ ∀ x, x ∈ ks → x ∈ insert_key k ks.
Proof.
  induction ks as [|k' ks [(y & Hy & Hyk) IH]]; simpl.
  - split; [|intros x Hx; by apply elem_of_nil in Hx].
    exists k. split; [left | reflexivity].
  - destruct (Qeq_bool k k') eqn:He.
    + apply Qeq_bool_iff in He. split; [|done].
      exists k'. split; [left | by symmetry].
    + destruct (Qle_bool k k').
      * split; [|by right]. exists k. split; [left | reflexivity].
      * split.
        -- exists y. split; [by right | done].
        -- intros x [->|Hx]%elem_of_cons; [left | right; auto].
Qed.

Lemma group_keys_covers (keys : list value) (k : Q) :
  Some k ∈ keys → ∃ y, y ∈ group_keys keys ∧ y == k.
Proof.
  induction keys as [|[k'|] keys IH]; simpl.
  - intros Hk. by apply elem_of_nil in Hk.
  - destruct (insert_key_covers k' (group_keys keys)) as [Hnew Hold].
    intros [Heq|Hk]%elem_of_cons.
    + injection Heq as ->. exact Hnew.
    + destruct (IH Hk) as (y & Hy & Hyk). exists y. split; [auto | done].
  - intros [Heq|Hk]%elem_of_cons; [done | auto].
Qed.

Lemma sorted_lt_NoDup (l : list Q) : StronglySorted Qlt l → NoDup l.
Proof.
  induction 1 as [|x l _ IH Hall]; constructor; [|done].
  intros Hx. apply (Forall_forall (Qlt x) l) in Hx; [|done].
  by apply Qlt_irrefl in Hx.
Qed.

Lemma range_keys_sorted (a k : nat) :
  StronglySorted Qlt ((λ c, inject_Z (Z.of_nat c)) <$> seq a k).
Proof.
  revert a. induction k as [|k IH]; intros a; simpl; constructor; [apply IH|].
  apply Forall_fmap, Forall_forall. intros c [Hc _]%elem_of_seq. simpl.
  rewrite <- Zlt_Qlt. lia.
Qed.

(** The cycle numbers 0, 1, ..., k-1, all present, are listed as such. *)
Lemma group_keys_contiguous (keys : list value) (k : nat) :
  (∀ v, v ∈ keys → ∃ c, (c < k)%nat ∧ v = Some (inject_Z (Z.of_nat c))) →
  (∀ c, (c < k)%nat → Some (inject_Z (Z.of_nat c)) ∈ keys) →
  group_keys keys = (λ c, inject_Z (Z.of_nat c)) <$> seq 0 k.
Proof.
  intros Hform Hall.
  apply (StronglySorted_unique_strong Qlt).
  - intros x y _ _ Hxy Hyx. exfalso. lra.
  - apply group_keys_sorted.
  - apply range_keys_sorted.
  - apply NoDup_Permutation.
    + apply sorted_lt_NoDup, group_keys_sorted.
    + apply sorted_lt_NoDup, range_keys_sorted.
    + intros x. split.
      * intros (c & Hc & Hx)%elem_of_group_keys%Hform. injection Hx as ->.
        apply list_elem_of_fmap. exists c. split; [done|].
        apply elem_of_seq. lia.
      * intros (c & -> & Hc)%list_elem_of_fmap. apply elem_of_seq in Hc.
        destruct (group_keys_covers keys _ (Hall c ltac:(lia))) as (y & Hy & Hyc).
        pose proof Hy as (c' & _ & Hy')%elem_of_group_keys%Hform.
        injection Hy' as ->.
        apply (proj1 (inject_Z_injective _ _)) in Hyc.
        by replace c with c' by lia.
Qed.

(** *** The mean of a cycle *)

Lemma group_values_samples (cyc vs : list value) (k : Q) :
  omap id (group_values cyc vs k) = cycle_samples cyc vs k.
Proof.
  unfold group_values, cycle_samples.
  induction (zip cyc vs) as [|[c v] l IH]; [done|].
  rewrite bind_cons, omap_app, IH. simpl.
  destruct c as [c|]; simpl.
  - destruct (Qeq_bool c k) eqn:Hc.
    + rewrite filter_cons_True by done. simpl. by destruct v.
    + by rewrite filter_cons_False by (simpl; congruence).
  - by rewrite filter_cons_False by done.
Qed.

Lemma nanmean_is_mean (cyc vs : list value) (k : Q) :
  is_mean (cycle_samples cyc vs k) (nanmean (group_values cyc vs k)).
Proof.
  unfold nanmean. rewrite group_values_samples.
  destruct (cycle_samples cyc vs k) as [|x xs]; [done|].
  cbn [is_mean]. split; [done|]. rewrite Qred_correct.
  set (n := inject_Z (Z.of_nat (length (x :: xs)))).
  assert (Hn : ¬ n == 0).
  { unfold n. change 0 with (inject_Z 0). rewrite inject_Z_injective.
    simpl. lia. }
  field. exact Hn.
Qed.

(** X12: how the per-cycle means reach the cycle statistics.  For a run
    output on the index of the raw data, the statistics keep their rows and
    their columns.  The cycles present are listed in strictly increasing
    order, each once; the new column named ["est_" ++ x] holds, in the row
    labelled [l], the arithmetic mean of the estimates of [x] over the
    samples of the cycle that is number [l] in this list (counting from
    0), and NaN when there are not that many cycles or the cycle has no
    estimate.  The row is chosen by this rank, not by the cycle number. *)
Theorem cycle_means_joined_by_rank (cell cell' : BatteryDataset)
    (output : DataFrame) (cyc : list value) :
  wf_frame (raw_data cell) → wf_frame (cycle_stats cell) →
  NoDup (index output) → index output = index (raw_data cell) →
  assoc "cycle_number" (columns (raw_data cell)) = Some cyc →
  append_estimates cell output = inr cell' →
  index (cycle_stats cell') = index (cycle_stats cell) ∧
  (∀ n vs, assoc n (columns (cycle_stats cell)) = Some vs →
           assoc n (columns (cycle_stats cell')) = Some vs) ∧
  StronglySorted Qlt (group_keys cyc) ∧
  (∀ k, k ∈ group_keys cyc → Some k ∈ cyc) ∧
  (∀ k, Some k ∈ cyc → ∃ k', k' ∈ group_keys cyc ∧ k' == k) ∧
  ∀ x vs, x ≠ "cycle_number" → assoc x (columns output) = Some vs →
    ∃ vs', assoc ("est_" +:+ x) (columns (cycle_stats cell')) = Some vs' ∧
      ∀ i l, index (cycle_stats cell) !! i = Some l →
        ∃ m, vs' !! i = Some m ∧
          match (if decide (0 ≤ l)%Z then group_keys cyc !! Z.to_nat l
                 else None) with
          | Some k => is_mean (cycle_samples cyc vs k) m
          | None => m = NaN
          end.
Proof.
  intros Hwf Hwfs Hnd Hidx Hcyc Ha.
  pose proof (append_estimates_cycle_stats _ _ _ _ Hwf Hnd Hidx Hcyc Ha) as Hj.
  pose proof (λ Hn, join_spec _ _ _ Hwfs Hn Hj) as Hspec.
  destruct (Hspec (NoDup_range_index _)) as (Hi & _ & Hleft & Hright).
  split; [done|]. split; [done|].
  split; [apply group_keys_sorted|].
  split; [apply elem_of_group_keys|].
  split; [apply group_keys_covers|].
  intros x vs Hx Hvs.
  destruct (Hright (est_ x)
              ((λ k, nanmean (group_values cyc vs k)) <$> group_keys cyc))
    as (vs' & Hvs' & _ & Hrow).
  { unfold rename. simpl. rewrite assoc_rename_est.
    rewrite (assoc_group_columns "cycle_number" x
               (λ ws, (λ k, nanmean (group_values cyc ws k)) <$> group_keys cyc))
      by done.
    by rewrite Hvs. }
  exists vs'. split; [exact Hvs'|]. intros i l Hl. rewrite (Hrow i l Hl).
  eexists. split; [reflexivity|].
  simpl. rewrite positions_range_index. simpl.
  destruct (decide (0 ≤ l)%Z) as [H0|H0]; case_decide as Hr; try lia; simpl.
  - rewrite list_lookup_fmap, ?Nat.sub_0_r.
    destruct (group_keys cyc !! Z.to_nat l) as [k|]; simpl; [|done].
    apply nanmean_is_mean.
  - by rewrite (proj2 (lookup_ge_None _ _)) by lia.
  - done.
Qed.

(** X13: when the cycle numbers of the raw data are exactly 0, 1, ...,
    k-1, the row of the statistics labelled [c] receives the arithmetic
    mean of the estimates over the samples of cycle [c], for every column
    of the run output and every cycle. *)
Theorem cycle_means_by_cycle_when_contiguous (cell cell' : BatteryDataset)
    (output : DataFrame) (cyc : list value) (k : nat) :
  wf_frame (raw_data cell) → wf_frame (cycle_stats cell) →
  NoDup (index output) → index output = index (raw_data cell) →
  assoc "cycle_number" (columns (raw_data cell)) = Some cyc →
  (∀ v, v ∈ cyc → ∃ c, (c < k)%nat ∧ v = Some (inject_Z (Z.of_nat c))) →
  (∀ c, (c < k)%nat → Some (inject_Z (Z.of_nat c)) ∈ cyc) →
  append_estimates cell output = inr cell' →
  ∀ x vs, x ≠ "cycle_number" → assoc x (columns output) = Some vs →
    ∃ vs', assoc ("est_" +:+ x) (columns (cycle_stats cell')) = Some vs' ∧
      ∀ i c, index (cycle_stats cell) !! i = Some (Z.of_nat c) → (c < k)%nat →
        ∃ m, vs' !! i = Some m ∧
             is_mean (cycle_samples cyc vs (inject_Z (Z.of_nat c))) m.
Proof.
  intros Hwf Hwfs Hnd Hidx Hcyc Hform Hall Ha x vs Hx Hvs.
  pose proof (append_estimates_cycle_stats _ _ _ _ Hwf Hnd Hidx Hcyc Ha) as Hj.
  rewrite (group_keys_contiguous cyc k Hform Hall) in Hj.
  pose proof (λ Hn, join_spec _ _ _ Hwfs Hn Hj) as Hspec.
  destruct (Hspec (NoDup_range_index _)) as (_ & _ & _ & Hright).
  set (ks := (λ c, inject_Z (Z.of_nat c)) <$> seq 0 k) in *.
  destruct (Hright (est_ x) ((λ q, nanmean (group_values cyc vs q)) <$> ks))
    as (vs' & Hvs' & _ & Hrow).
  { unfold rename. simpl. rewrite assoc_rename_est.
    rewrite (assoc_group_columns "cycle_number" x
               (λ ws, (λ q, nanmean (group_values cyc ws q)) <$> ks)) by done.
    by rewrite Hvs. }
  exists vs'. split; [exact Hvs'|]. intros i c Hl Hc. rewrite (Hrow i _ Hl).
  eexists. split; [reflexivity|].
  simpl. rewrite positions_range_index. simpl.
  assert (Hlen : length ks = k) by (unfold ks; by rewrite length_fmap, length_seq).
  rewrite decide_True by lia. simpl.
  rewrite ?Nat.sub_0_r, Nat2Z.id.
  unfold ks. rewrite !list_lookup_fmap, lookup_seq_lt by done. simpl.
  apply nanmean_is_mean.
Qed.

(** X14: what [append_estimates] refuses.  A raw-data column that already
    carries the name of an estimate column makes the join fail with
    ValueError; raw data without [cycle_number] fails with KeyError; and
    the result of one application cannot be fed in again: a second
    application with the same run output fails with ValueError, so
    estimate columns are never duplicated or overwritten. *)
Theorem append_estimates_refusals (cell : BatteryDataset) (output : DataFrame) :
  (∀ x, x ∈ column_names output → est_ x ∈ column_names (raw_data cell) →
        append_estimates cell output = inl ValueError) ∧
  ((∀ x, x ∈ column_names output → est_ x ∉ column_names (raw_data cell)) →
   "cycle_number" ∉ column_names (raw_data cell) →
   append_estimates cell output = inl KeyError) ∧
  (∀ cell', append_estimates cell output = inr cell' →
            column_names output ≠ [] →
            append_estimates cell' output = inl ValueError).
Proof.
  assert (Hclash : ∀ c : BatteryDataset, ∀ x,
    x ∈ column_names output → est_ x ∈ column_names (raw_data c) →
    append_estimates c output = inl ValueError).
  { intros c x Hx Hc. unfold append_estimates.
    rewrite (join_overlap _ _ (est_ x)); [done..|].
    rewrite column_names_rename. apply list_elem_of_fmap. eauto. }
  split; [apply Hclash|]. split.
  - intros Hfree Hno. unfold append_estimates.
    destruct (join (raw_data cell) (rename est_ output)) as [e|raw] eqn:Hj.
    { exfalso. unfold join in Hj.
      destruct (overlap _ _) eqn:Ho; [|done].
      apply bool_decide_eq_true, Exists_exists in Ho as (n & Hn & Hr).
      rewrite column_names_rename in Hr.
      apply list_elem_of_fmap in Hr as (x & -> & Hx). by apply (Hfree x). }
    apply join_column_names in Hj as [_ Hnames]. simpl.
    unfold getitem.
    replace (assoc "cycle_number" (columns raw)) with (@None (list value));
      [done|].
    symmetry. apply assoc_None.
    change (columns raw).*1 with (column_names raw).
    rewrite Hnames, column_names_rename. intros [Hl|Hr]%elem_of_app; [done|].
    apply list_elem_of_fmap in Hr as (x & Hx & _).
    by apply (est_not_cycle_number x).
  - intros cell' Ha Hne.
    assert (∃ x, x ∈ column_names output) as [x Hx].
    { destruct (column_names output) as [|x names]; [done|]. exists x. left. }
    apply (Hclash cell' x Hx).
    apply append_estimates_raw in Ha. apply join_column_names in Ha as [_ ->].
    apply elem_of_app. right. rewrite column_names_rename.
    apply list_elem_of_fmap. eauto.
Qed.

End CycleStats.

(** ** The configuration cell *)

Section Configuration.
Local Open Scope Q_scope.

(** X1: on a well-formed ASOH the configuration cell succeeds; it changes
    no parameter value (the base values of [q_t] and [r0] are as loaded),
    marks the base values of both as updatable and keeps every earlier
    mark, replaces the reference OCV by the padded table with linear
    interpolation, and adds or removes no object. *)
Theorem configure_spec (h : heap) (initial_asoh : loc) (a : ASOHValue) :
  read_asoh h initial_asoh = inr a →
  ∃ h' a',
    configure h initial_asoh = inr h' ∧
    read_asoh h' initial_asoh = inr a' ∧
    base_values (v_q_t a') = base_values (v_q_t a) ∧
    base_values (v_r0 a') = base_values (v_r0 a) ∧
    "base_values" ∈ updatable (v_q_t a') ∧
    "base_values" ∈ updatable (v_r0 a') ∧
    (∀ n, n ∈ updatable (v_q_t a) → n ∈ updatable (v_q_t a')) ∧
    (∀ n, n ∈ updatable (v_r0 a) → n ∈ updatable (v_r0 a')) ∧
    v_ocv_ref a' = mkRefOCV (pad_base_vals (ref_base_values (v_ocv_ref a)))
                     (pad_soc_pinpoints (soc_pinpoints (v_ocv_ref a))) "linear" ∧
    asoh_locs h' initial_asoh = asoh_locs h initial_asoh ∧
    dom h' = dom h.
Proof.
  intros Ha.
  pose proof Ha as (ql & rl & ol & rf & Hroot & Hq & Hr & Ho & Hf)%read_asoh_lookup.
  set (mark := λ v : HealthVariable,
         mkHealth (base_values v)
           (if decide ("base_values" ∈ updatable v) then updatable v
            else updatable v ++ ["base_values"])).
  assert (Hmark : ∀ v, base_values (mark v) = base_values v ∧
                       "base_values" ∈ updatable (mark v) ∧
                       ∀ n, n ∈ updatable v → n ∈ updatable (mark v)).
  { intros v. unfold mark. simpl. split; [done|]. case_decide.
    - done.
    - split; [apply elem_of_app; right; left|].
      intros n Hn. apply elem_of_app. by left. }
  set (c' := mkRefOCV (pad_base_vals (ref_base_values (v_ocv_ref a)))
               (pad_soc_pinpoints (soc_pinpoints (v_ocv_ref a))) "linear").
  set (h1 := <[rf := ORefOCV c']> h).
  set (h2 := <[rl := OHealth (mark (v_r0 a))]> h1).
  assert (H1 : fix_reference_ocv h initial_asoh = inr h1).
  { unfold fix_reference_ocv, attr_ocv, attr_ocv_ref, get_ref_ocv.
    rewrite Hroot. simpl. rewrite Ho. simpl. by rewrite Hf. }
  assert (Hroot1 : h1 !! initial_asoh = Some (OECMASOH ql rl ol))
    by (unfold h1; rewrite lookup_insert_ne by congruence; done).
  assert (Hr1 : h1 !! rl = Some (OHealth (v_r0 a)))
    by (unfold h1; rewrite lookup_insert_ne by congruence; done).
  assert (H2 : mark_updatable h1 initial_asoh "r0" = inr h2).
  { unfold mark_updatable. rewrite decide_False by done.
    rewrite decide_True by done. unfold attr_r0, get_health.
    rewrite Hroot1. simpl. by rewrite Hr1. }
  assert (Hroot2 : h2 !! initial_asoh = Some (OECMASOH ql rl ol))
    by (unfold h2; rewrite lookup_insert_ne by congruence; done).
  set (q2 := if decide (ql = rl) then mark (v_r0 a) else v_q_t a).
  assert (Hq2 : h2 !! ql = Some (OHealth q2)).
  { unfold h2, q2. case_decide as Hql.
    - subst ql. apply lookup_insert_eq.
    - rewrite lookup_insert_ne by done. unfold h1.
      rewrite lookup_insert_ne by congruence. done. }
  set (h3 := <[ql := OHealth (mark q2)]> h2).
  assert (H3 : mark_updatable h2 initial_asoh "q_t" = inr h3).
  { unfold mark_updatable. rewrite decide_True by done.
    unfold attr_q_t, get_health. rewrite Hroot2. simpl. by rewrite Hq2. }
  set (r3 := if decide (ql = rl) then mark q2 else mark (v_r0 a)).
  exists h3, (mkASOHValue (mark q2) r3 c').
  split.
  { unfold configure. rewrite H1. simpl. rewrite H2. simpl. exact H3. }
  assert (Hroot3 : h3 !! initial_asoh = Some (OECMASOH ql rl ol))
    by (unfold h3; rewrite lookup_insert_ne by congruence; done).
  assert (Ho3 : h3 !! ol = Some (OOpenCircuitVoltage rf)).
  { unfold h3, h2, h1. rewrite !lookup_insert_ne by congruence. done. }
  split.
  { apply read_asoh_lookup. exists ql, rl, ol, rf. simpl.
    split; [done|]. split; [apply lookup_insert_eq|]. split.
    - unfold h3, r3. case_decide as Hql.
      + subst ql. apply lookup_insert_eq.
      + rewrite lookup_insert_ne by done. apply lookup_insert_eq.
    - split; [done|]. unfold h3, h2, h1.
      rewrite !lookup_insert_ne by congruence. apply lookup_insert_eq. }
  cbn [v_q_t v_r0 v_ocv_ref].
  assert (Hsame : ql = rl → v_q_t a = v_r0 a) by (intros ->; congruence).
  pose proof (Hmark (v_q_t a)) as (Hb1 & Hu1 & Hk1).
  pose proof (Hmark (v_r0 a)) as (Hbr & Hur & Hkr).
  pose proof (Hmark (mark (v_r0 a))) as (Hbb & Hub & Hkb).
  assert (Hlocs : asoh_locs h3 initial_asoh = asoh_locs h initial_asoh).
  { unfold asoh_locs, attr_q_t, attr_r0, attr_ocv, attr_ocv_ref.
    rewrite Hroot3, Hroot. simpl. by rewrite Ho3, Ho. }
  assert (Hdom : dom h3 = dom h).
  { unfold h3, h2, h1. rewrite !dom_insert_L.
    assert (ql ∈ dom h) by (apply elem_of_dom; eauto).
    assert (rl ∈ dom h) by (apply elem_of_dom; eauto).
    assert (rf ∈ dom h) by (apply elem_of_dom; eauto).
    set_solver. }
  clearbody h3 mark c'. unfold r3, q2.
  destruct (decide (ql = rl)) as [Hql|Hql].
  - rewrite (Hsame Hql). repeat split; try done; try congruence; eauto.
  - repeat split; try done; eauto.
Qed.

Lemma configure_spec_witness :
  ∃ a h' a',
    read_asoh loaded_heap asoh_loc = inr a ∧
    configure loaded_heap asoh_loc = inr h' ∧
    read_asoh h' asoh_loc = inr a' ∧
    base_values (v_q_t a') = base_values (v_q_t a) ∧
    base_values (v_r0 a') = base_values (v_r0 a) ∧
    "base_values" ∈ updatable (v_q_t a') ∧
    "base_values" ∈ updatable (v_r0 a').
Proof.
  destruct (read_asoh loaded_heap asoh_loc) as [e|a] eqn:Ha;
    [vm_compute in Ha; discriminate|].
  destruct (configure_spec loaded_heap asoh_loc a Ha)
    as (h' & a' & Hc & Hr & Hq & Hr0 & Huq & Hur & _).
  exists a, h', a'. repeat (split; [done|]). done.
Defined.

(** *** The padded table and the curve *)

Lemma interp_linear_app (xs ys xs2 ys2 : list Q) (s v : Q) :
  length xs = length ys →
  interp_linear xs ys s = Some v →
  interp_linear (xs ++ xs2) (ys ++ ys2) s = Some v.
Proof.
  revert ys. induction xs as [|x0 xs IH]; intros ys Hlen Hi; [done|].
  destruct ys as [|y0 ys]; [done|].
  destruct xs as [|x1 xs]; [by destruct ys|]. destruct ys as [|y1 ys]; [done|].
  cbn [app interp_linear] in *.
  destruct (Qle_bool x0 s && Qle_bool s x1); [done|].
  apply (IH (y1 :: ys)); [simpl in *; lia | done].
Qed.

Lemma interp_linear_left_end (xs ys : list Q) (s v : Q) :
  interp_linear xs ys s = Some v → ∃ x, x ∈ xs ∧ x <= s.
Proof.
  revert ys. induction xs as [|x0 xs IH]; intros ys Hi; [done|].
  destruct xs as [|x1 xs]; [by destruct ys|].
  destruct ys as [|y0 [|y1 ys]]; [done..|].
  cbn [interp_linear] in Hi.
  destruct (Qle_bool x0 s && Qle_bool s x1) eqn:Hb.
  - apply andb_true_iff in Hb as [Hb _]. apply Qle_bool_iff in Hb.
    exists x0. split; [left | done].
  - destruct (IH (y1 :: ys) Hi) as (x & Hx & Hle).
    exists x. split; [by right | done].
Qed.

(** X2: the padding does not change a linear curve where it was defined.
    For a loaded table whose interpolation style is linear already, with
    increasing pinpoints above -0.1, a query that the loaded table answers
    is answered by the padded table with the same value. *)
Theorem padding_keeps_curve (c : ReferenceOCV) (s v : Q) :
  interpolation_style c = "linear" →
  Sorted Qle (soc_pinpoints c) →
  Forall (λ x, -0.1 < x) (soc_pinpoints c) →
  ocv_query c s = Some v →
  ∃ v',
    ocv_query (mkRefOCV (pad_base_vals (ref_base_values c))
                 (pad_soc_pinpoints (soc_pinpoints c)) "linear") s = Some v' ∧
    v' == v.
Proof.
  destruct c as [bv sp style]. simpl. intros -> Hsort Hlow Hq.
  unfold ocv_query in *. simpl in *.
  case_decide as Hlen; [|done].
  rewrite decide_True
    by (unfold pad_soc_pinpoints, pad_base_vals; rewrite !length_app; simpl; lia).
  apply Sorted.Sorted_StronglySorted in Hsort;
    [|intros x y z; apply Qle_trans].
  destruct (interp_linear_left_end _ _ _ _ Hq) as (x & Hx & Hxs).
  destruct sp as [|x0 [|x1 sp]]; [done| |].
  { destruct bv as [|y0 bv]; done. }
  destruct bv as [|y0 [|y1 bv]]; [done..|].
  apply StronglySorted_inv in Hsort as [Hsort Hall].
  assert (H0s : x0 <= s).
  { apply elem_of_cons in Hx as [->|Hx]; [done|].
    apply (Forall_forall (Qle x0) (x1 :: sp)) in Hx; [|done].
    by eapply Qle_trans. }
  assert (H01 : x0 <= x1) by (by apply Forall_cons in Hall as [? _]).
  apply Forall_cons in Hlow as [Hlow0 _].
  unfold pad_soc_pinpoints, pad_base_vals. cbn [app interp_linear].
  destruct (Qle_bool (-0.1) s && Qle_bool s x0) eqn:Hb.
  - apply andb_true_iff in Hb as [_ Hb]. apply Qle_bool_iff in Hb.
    assert (Hs : s == x0) by (by apply Qle_antisym).
    cbn [interp_linear] in Hq.
    assert (Hc : Qle_bool x0 s && Qle_bool s x1 = true).
    { apply andb_true_iff. split; apply Qle_bool_iff; [done|].
      by eapply Qle_trans. }
    rewrite Hc in Hq. injection Hq as <-.
    eexists. split; [done|]. rewrite Hs.
    transitivity y0; [field; lra | unfold Qdiv; ring].
  - exists v. split; [|reflexivity].
    exact (interp_linear_app (x0 :: x1 :: sp) (y0 :: y1 :: bv) [1.1] [6.5]
             s v Hlen Hq).
Qed.

Lemma padding_keeps_curve_witness :
  ∃ v',
    ocv_query (mkRefOCV [0; 3; 4; 6.5] [-0.1; 0; 1; 1.1] "linear") 0.5 = Some v' ∧
    v' == 3.5.
Proof.
  apply (padding_keeps_curve (mkRefOCV [3; 4] [0; 1] "linear") 0.5 3.5).
  - reflexivity.
  - repeat constructor; unfold Qle; simpl; lia.
  - repeat constructor.
  - reflexivity.
Defined.

End Configuration.

(** ** More on [create_estimator] *)

Section EstimatorShape.
Context `{Moirae}.

Lemma length_scale (c : Q) (m : matrix) : length (scale c m) = length m.
Proof. unfold scale. by rewrite length_map. Qed.

Lemma length_np_eye (n : nat) : length (np_eye n) = n.
Proof. unfold np_eye. by rewrite length_np_diag, length_replicate. Qed.

(** X3: the blocks that [create_estimator] builds fit together.  The ASOH
    covariance and the ASOH process noise are square of the same size, one
    row for the capacity and one per resistance value; the two transient
    blocks are 2 by 2 and the sensor noise is 1 by 1; and once the base
    values of [q_t] and [r0] are marked updatable, as the configuration
    cell does, the size of the ASOH blocks is the number of updatable
    values. *)
Theorem create_estimator_shapes (initial_asoh : loc) (dataset : BatteryDataset)
    (h h' : heap) (est : JointEstimator) (a : ASOHValue) :
  read_asoh h initial_asoh = inr a →
  create_estimator initial_asoh dataset h = inr (h', est) →
  shape0 (covariance_asoh est) = S (length (base_values (v_r0 a))) ∧
  shape0 (asoh_covariance_process_noise est) = shape0 (covariance_asoh est) ∧
  shape0 (covariance_transient est) = 2%nat ∧
  shape0 (transient_covariance_process_noise est) = 2%nat ∧
  shape0 (covariance_sensor_noise est) = 1%nat ∧
  Forall is_square (covariances est) ∧
  ("base_values" ∈ updatable (v_q_t a) → "base_values" ∈ updatable (v_r0 a) →
   shape0 (covariance_asoh est) =
   length (updatable_values (v_q_t a) ++ updatable_values (v_r0 a))).
Proof.
  intros Ha Hc.
  apply create_estimator_inv in Hc
    as (ql & q_t & q & rl & r0 & a0 & t0 & i0 &
        Hql & Hqt & Hq & Hrl & Hr0 & _ & _ & _ & Hc).
  cbv zeta in Hc. destruct Hc as [_ Hest].
  apply read_asoh_lookup in Ha as (ql' & rl' & ol & rf & Hroot & Hlq & Hlr & _).
  unfold attr_q_t, attr_r0 in Hql, Hrl. rewrite Hroot in Hql, Hrl. simplify_eq.
  unfold get_health in Hqt, Hr0. rewrite Hlq in Hqt. rewrite Hlr in Hr0.
  simplify_eq.
  assert (Hsq : Forall is_square (covariances est)).
  { rewrite Hest. unfold covariances.
    cbn [covariance_asoh covariance_transient transient_covariance_process_noise
         asoh_covariance_process_noise covariance_sensor_noise].
    assert (Heye : ∀ c n, is_square (scale c (np_eye n)))
      by (intros c n; apply scale_square; unfold np_eye; apply np_diag_square).
    repeat (apply Forall_cons_2; [first [apply np_diag_square | apply Heye]|]).
    apply Forall_nil_2. }
  set (cs := covariances est) in *. clearbody cs.
  rewrite Hest. unfold shape0.
  cbn [covariance_asoh covariance_transient transient_covariance_process_noise
       asoh_covariance_process_noise covariance_sensor_noise].
  rewrite !length_scale, !length_np_eye, !length_np_diag. simpl.
  rewrite length_fmap.
  repeat (split; [done|]).
  intros Huq Hur. unfold updatable_values.
  rewrite !decide_True by done. rewrite length_app, Hq. done.
Qed.

(** X4: what [create_estimator] needs and its first refusal.  On a
    well-formed ASOH it returns an estimator only if the capacity [q_t]
    holds a single value and the raw data has a first [test_time] and a
    first [current], which are the initial inputs of the estimator; and a
    capacity with no or several values raises ValueError (from [.item()],
    the first statement) whatever the dataset is. *)
Theorem create_estimator_outcomes (initial_asoh : loc) (dataset : BatteryDataset)
    (h : heap) (a : ASOHValue) :
  read_asoh h initial_asoh = inr a →
  (∀ h' est, create_estimator initial_asoh dataset h = inr (h', est) →
     (∃ q, base_values (v_q_t a) = [q]) ∧
     (∃ ts, assoc "test_time" (columns (raw_data dataset))
            = Some (time (initial_inputs est) :: ts)) ∧
     (∃ cs, assoc "current" (columns (raw_data dataset))
            = Some (current (initial_inputs est) :: cs))) ∧
  (length (base_values (v_q_t a)) ≠ 1%nat →
   create_estimator initial_asoh dataset h = inl ValueError).
Proof.
  intros Ha.
  pose proof Ha as (ql & rl & ol & rf & Hroot & Hlq & Hlr & Hlo & Hlf)%read_asoh_lookup.
  assert (Hq : attr_q_t h initial_asoh = inr ql)
    by (unfold attr_q_t; by rewrite Hroot).
  assert (Hgq : get_health h ql = inr (v_q_t a))
    by (unfold get_health; by rewrite Hlq).
  assert (Hfirst : ∀ n v, getitem (raw_data dataset) n ≫= iloc0 = inr v →
                          ∃ vs, assoc n (columns (raw_data dataset)) = Some (v :: vs)).
  { intros n v. unfold getitem.
    destruct (assoc n (columns (raw_data dataset))) as [[|v' vs]|]; simpl;
      [done| |done].
    intros Heq. injection Heq as ->. eauto. }
  split.
  - intros h' est Hc.
    apply create_estimator_inv in Hc
      as (ql' & q_t & q & rl' & r0 & a0 & t0 & i0 &
          Hql & Hqt & Hitem & _ & _ & _ & Ht & Hi & Hc).
    cbv zeta in Hc. destruct Hc as [_ Hest].
    rewrite Hq in Hql. injection Hql as <-.
    rewrite Hgq in Hqt. injection Hqt as <-.
    split.
    { exists q. unfold item in Hitem.
      destruct (base_values (v_q_t a)) as [|x [|y l]]; by simplify_eq. }
    rewrite Hest. simpl. split; by apply Hfirst.
  - intros Hlen. unfold create_estimator. rewrite Hq. simpl. rewrite Hgq. simpl.
    destruct (base_values (v_q_t a)) as [|x [|y l]]; simpl in *; done.
Qed.

End EstimatorShape.

(** ** The further properties on the concrete scenarios *)

Lemma create_estimator_shapes_witness :
  ∃ a h' est,
    read_asoh configured_heap asoh_loc = inr a ∧
    @create_estimator toy_moirae asoh_loc cell_a configured_heap = inr (h', est) ∧
    shape0 (covariance_asoh est) = 3%nat ∧
    shape0 (asoh_covariance_process_noise est) = shape0 (covariance_asoh est) ∧
    shape0 (covariance_transient est) = 2%nat ∧
    shape0 (transient_covariance_process_noise est) = 2%nat ∧
    shape0 (covariance_sensor_noise est) = 1%nat ∧
    Forall is_square (covariances est) ∧
    shape0 (covariance_asoh est) =
      length (updatable_values (v_q_t a) ++ updatable_values (v_r0 a)).
Proof.
  destruct (read_asoh configured_heap asoh_loc) as [e|a] eqn:Ha;
    [vm_compute in Ha; discriminate|].
  destruct (@create_estimator toy_moirae asoh_loc cell_a configured_heap)
    as [e|[h' est]] eqn:Hc; [vm_compute in Hc; discriminate|].
  destruct (@create_estimator_shapes toy_moirae asoh_loc cell_a configured_heap
              h' est a Ha Hc) as (H1 & H2 & H3 & H4 & H5 & H6 & H7).
  exists a, h', est. split; [reflexivity|]. split; [reflexivity|].
  assert (Hr : base_values (v_r0 a) = [0.01; 0.02]%Q ∧
               "base_values" ∈ updatable (v_q_t a) ∧
               "base_values" ∈ updatable (v_r0 a)).
  { vm_compute in Ha. injection Ha as <-. simpl.
    split; [reflexivity|]. split; left. }
  destruct Hr as (Hr & Huq & Hur).
  split; [by rewrite H1, Hr|]. repeat (split; [assumption|]).
  exact (H7 Huq Hur).
Defined.

Lemma create_estimator_outcomes_witness :
  (∃ h' est,
     @create_estimator toy_moirae asoh_loc cell_a configured_heap = inr (h', est) ∧
     initial_inputs est = mkInput (fl 0) (fl 1)) ∧
  @create_estimator toy_moirae asoh_loc cell_a
    (<[1%positive := OHealth (mkHealth [10; 11]%Q [])]> configured_heap)
  = inl ValueError.
Proof.
  split.
  - destruct (read_asoh configured_heap asoh_loc) as [e|a] eqn:Ha;
      [vm_compute in Ha; discriminate|].
    destruct (@create_estimator toy_moirae asoh_loc cell_a configured_heap)
      as [e|[h' est]] eqn:Hc; [vm_compute in Hc; discriminate|].
    destruct (@create_estimator_outcomes toy_moirae asoh_loc cell_a
                configured_heap a Ha) as [Hneeds _].
    destruct (Hneeds h' est Hc) as (_ & [ts Ht] & [cs Hi]).
    exists h', est. split; [reflexivity|].
    injection Ht as Ht _. injection Hi as Hi _.
    destruct est as [? [t i] ? ? ? ? ? ?]. simpl in *. by subst.
  - set (h := <[1%positive := OHealth (mkHealth [10; 11]%Q [])]> configured_heap).
    destruct (read_asoh h asoh_loc) as [e|a] eqn:Ha;
      [vm_compute in Ha; discriminate|].
    destruct (@create_estimator_outcomes toy_moirae asoh_loc cell_a h a Ha)
      as [_ Hbad].
    apply Hbad. vm_compute in Ha. injection Ha as <-. simpl. lia.
Defined.

Lemma exception_ends_batch_witness :
  let w := start batch_files in
  ∃ w1,
    @batch_loop toy_moirae asoh_loc [path_a] w = Continue w1 ∧
    @loop_body toy_moirae asoh_loc w1 path_c = Raise FileNotFoundError w1 ∧
    @batch_loop toy_moirae asoh_loc ([path_a] ++ path_c :: [path_b]) w
    = Raise FileNotFoundError w1 ∧
    files w1 = files w1 ∧ stdout w1 = stdout w1.
Proof.
  intros w.
  destruct (@batch_loop toy_moirae asoh_loc [path_a] w) as [w1|e w1] eqn:Hfirst;
    [|vm_compute in Hfirst; discriminate].
  assert (Hout : files w1 !! joinpath estimate_dir (name path_c) = None).
  { apply (f_equal world_of) in Hfirst. simpl in Hfirst. subst w1.
    vm_compute. reflexivity. }
  assert (Hin : files w1 !! path_c = None).
  { apply (f_equal world_of) in Hfirst. simpl in Hfirst. subst w1.
    vm_compute. reflexivity. }
  assert (Hb : @loop_body toy_moirae asoh_loc w1 path_c = Raise FileNotFoundError w1).
  { unfold loop_body. rewrite Hout, Hin.
    rewrite decide_False by (intros [? ?]; discriminate). reflexivity. }
  exists w1. split; [reflexivity|]. split; [exact Hb|].
  exact (@exception_ends_batch toy_moirae asoh_loc [path_a] [path_b] path_c
           w w1 w1 FileNotFoundError Hfirst Hb).
Defined.

Lemma completed_batch_accounts_for_every_cell_witness :
  let w := start batch_files in
  ∃ w',
    @batch_loop toy_moirae asoh_loc [path_a; path_b] w = Continue w' ∧
    (is_Some (files w' !! joinpath estimate_dir (name path_b)) ∨
     failure_message path_b ∈ stdout w').
Proof.
  intros w.
  destruct (@batch_loop toy_moirae asoh_loc [path_a; path_b] w)
    as [w'|e w'] eqn:Hl; [|vm_compute in Hl; discriminate].
  exists w'. split; [reflexivity|].
  apply (@completed_batch_accounts_for_every_cell toy_moirae asoh_loc
           [path_a; path_b] w w' path_b Hl).
  right. left.
Defined.

Lemma batch_loop_keeps_initial_asoh_witness :
  let w := start batch_files in
  let w' := world_of (@batch_loop toy_moirae asoh_loc [path_a; path_b] w) in
  ∃ a,
    read_asoh (objects w) asoh_loc = inr a ∧
    (∀ l, l ∈ dom (objects w) → objects w' !! l = objects w !! l) ∧
    read_asoh (objects w') asoh_loc = inr a.
Proof.
  intros w w'.
  destruct (read_asoh (objects w) asoh_loc) as [e|a] eqn:Ha;
    [vm_compute in Ha; discriminate|].
  destruct (@batch_loop_keeps_initial_asoh toy_moirae asoh_loc [path_a; path_b]
              w a Ha) as (Hfr & Hr & _).
  exists a. split; [reflexivity|]. split; [exact Hfr | exact Hr].
Defined.

Lemma batch_uses_one_prior_witness :
  let w := start batch_files in
  let w' := world_of (@batch_loop toy_moirae asoh_loc [path_a; path_b] w) in
  ∃ e1 e2,
    estimations w' = [(path_b, e2); (path_a, e1)] ∧
    covariances e1 = covariances e2.
Proof.
  intros w w'.
  destruct (read_asoh (objects w) asoh_loc) as [e|a] eqn:Ha;
    [vm_compute in Ha; discriminate|].
  assert (He : ∃ e1 e2, estimations w' = [(path_b, e2); (path_a, e1)])
    by (do 2 eexists; vm_compute; reflexivity).
  destruct He as (e1 & e2 & He).
  exists e1, e2. split; [exact He|].
  apply (@batch_uses_one_prior toy_moirae asoh_loc [path_a; path_b] w a
           (path_a, e1) (path_b, e2) Ha eq_refl).
  - fold w'. rewrite He. right. left.
  - fold w'. rewrite He. left.
Defined.

Lemma cycle_means_joined_by_rank_witness :
  ∃ cell' vs' m0 m1,
    append_estimates cell_c output_d = inr cell' ∧
    group_keys [fl 1; fl 1; fl 2; fl 2] = [1; 2]%Q ∧
    assoc "est_soc" (columns (cycle_stats cell')) = Some vs' ∧
    vs' !! 0%nat = Some (Some m0) ∧ (m0 == 0.75)%Q ∧
    vs' !! 1%nat = Some (Some m1) ∧ (m1 == 0.25)%Q ∧
    vs' !! 2%nat = Some NaN.
Proof.
  destruct (append_estimates cell_c output_d) as [e|cell'] eqn:Ha;
    [vm_compute in Ha; discriminate|].
  destruct (cycle_means_joined_by_rank cell_c cell' output_d
              [fl 1; fl 1; fl 2; fl 2]) as (_ & _ & _ & _ & _ & Hest).
  - repeat constructor.
  - repeat constructor.
  - apply (bool_decide_unpack (NoDup (index output_d))). vm_compute. exact I.
  - reflexivity.
  - reflexivity.
  - exact Ha.
  - destruct (Hest "soc" [Some 1; Some 0.5; Some 0.25; Some 0.25]%Q)
      as (vs' & Hvs' & Hrow); [done | reflexivity|].
    destruct (Hrow 0%nat 0%Z eq_refl) as (m0 & H0 & M0).
    destruct (Hrow 1%nat 1%Z eq_refl) as (m1 & H1 & M1).
    destruct (Hrow 2%nat 2%Z eq_refl) as (m2 & H2 & M2).
    vm_compute in M2. subst m2.
    destruct m0 as [m0|]; [|vm_compute in M0; discriminate].
    destruct m1 as [m1|]; [|vm_compute in M1; discriminate].
    destruct M0 as [_ M0], M1 as [_ M1].
    exists cell', vs', m0, m1. split; [reflexivity|]. split; [reflexivity|].
    split; [exact Hvs'|].
    split; [exact H0|]. split.
    { change (m0 * 2 == 1 + (0.5 + 0))%Q in M0. lra. }
    split; [exact H1|]. split; [|exact H2].
    change (m1 * 2 == 0.25 + (0.25 + 0))%Q in M1. lra.
Defined.

Lemma cycle_means_by_cycle_when_contiguous_witness :
  ∃ cell' vs' m0 m1,
    append_estimates cell_a output_d = inr cell' ∧
    assoc "est_soc" (columns (cycle_stats cell')) = Some vs' ∧
    vs' !! 0%nat = Some (Some m0) ∧ (m0 == 0.75)%Q ∧
    vs' !! 1%nat = Some (Some m1) ∧ (m1 == 0.25)%Q.
Proof.
  destruct (append_estimates cell_a output_d) as [e|cell'] eqn:Ha;
    [vm_compute in Ha; discriminate|].
  destruct (cycle_means_by_cycle_when_contiguous cell_a cell' output_d
              [fl 0; fl 0; fl 1; fl 1] 2
              ltac:(repeat constructor) ltac:(repeat constructor))
    with (x := "soc") (vs := [Some 1; Some 0.5; Some 0.25; Some 0.25]%Q)
    as (vs' & Hvs' & Hrow).
  - apply (bool_decide_unpack (NoDup (index output_d))). vm_compute. exact I.
  - reflexivity.
  - reflexivity.
  - intros v Hv. repeat (apply elem_of_cons in Hv as [->|Hv]).
    + exists 0%nat. split; [lia | reflexivity].
    + exists 0%nat. split; [lia | reflexivity].
    + exists 1%nat. split; [lia | reflexivity].
    + exists 1%nat. split; [lia | reflexivity].
    + by apply elem_of_nil in Hv.
  - intros c Hc. destruct c as [|[|c]]; [left | do 2 right; left | lia].
  - exact Ha.
  - done.
  - reflexivity.
  - destruct (Hrow 0%nat 0%nat eq_refl ltac:(lia)) as (m0 & H0 & M0).
    destruct (Hrow 1%nat 1%nat eq_refl ltac:(lia)) as (m1 & H1 & M1).
    destruct m0 as [m0|]; [|vm_compute in M0; discriminate].
    destruct m1 as [m1|]; [|vm_compute in M1; discriminate].
    destruct M0 as [_ M0], M1 as [_ M1].
    exists cell', vs', m0, m1. split; [reflexivity|]. split; [exact Hvs'|].
    split; [exact H0|]. split.
    { change (m0 * 2 == 1 + (0.5 + 0))%Q in M0. lra. }
    split; [exact H1|].
    change (m1 * 2 == 0.25 + (0.25 + 0))%Q in M1. lra.
Defined.

Lemma append_estimates_refusals_witness :
  ∃ cell',
    append_estimates cell_c output_c = inr cell' ∧
    append_estimates cell' output_c = inl ValueError.
Proof.
  destruct (append_estimates cell_c output_c) as [e|cell'] eqn:Ha;
    [vm_compute in Ha; discriminate|].
  exists cell'. split; [reflexivity|].
  destruct (append_estimates_refusals cell_c output_c) as (_ & _ & Hagain).
  apply (Hagain cell' Ha). discriminate.
Defined.

